(** * Strongly regular graph search: the integer program of [find_srg]

    A shallow embedding of [stronglyRegularGraphs.py].  The script builds a
    0/1 linear program whose solutions are the strongly regular graphs with
    parameters (n, k, lambda, mu), hands it to an external solver, reads the
    edge variables back, re-checks the graph and prints the outcome.

    The solver is the only part that is not code of the script: it is a
    field of the [World] a run takes place in. *)

From Stdlib Require Import ZArith Lia Ascii String.
From stdpp Require Import base decidable numbers list sorting gmap strings.

Local Open Scope Z_scope.
Set Warnings "-register-all,-clear-no-such-hyp".

(** ** Python built-ins used by the script *)

Abbreviation edge := (nat * nat)%type.
Abbreviation triple := (nat * nat * nat)%type.

(** [range(n)]: empty when [n <= 0]. *)
Definition range (n : Z) : list nat := seq 0 (Z.to_nat n).

(** [itertools.combinations(l, 2)]. *)
Fixpoint combinations2 (l : list nat) : list edge :=
  match l with
  | [] => []
  | a :: t => (pair a <$> t) ++ combinations2 t
  end.

(** [itertools.product(l, l, l)]. *)
Definition product3 (l : list nat) : list triple :=
  w ← l; u ← l; v ← l; [(w, u, v)].

(** [tuple(sorted([a, b]))]. *)
Definition sorted2 (a b : nat) : edge :=
  if decide (b < a)%nat then (b, a) else (a, b).

(** ** The part of gurobipy the script uses *)

Module gp.

(** A variable is known by its name: [x[u,v]] or [y[w,u,v]]. *)
Inductive Var : Type :=
| x_ (e : edge)
| y_ (t : triple).

#[export] Instance Var_eq_dec : EqDecision Var.
Proof. solve_decision. Defined.

(** Linear expressions as the script writes them. *)
Inductive LinExpr : Type :=
| Const (c : Z)
| V (v : Var)
| Add (a b : LinExpr)
| Sub (a b : LinExpr)
| Scale (c : Z) (a : LinExpr)
| quicksum (ts : list LinExpr).

Inductive Sense : Type := LE | GE | EQ.

Record Constr : Type := mkConstr { lhs : LinExpr; sense : Sense; rhs : LinExpr }.

(** Every variable of the script is declared with [vtype=GRB.BINARY]. *)
Record Model : Type := mkModel { vars : list Var; constrs : list Constr }.

Definition empty_model : Model := mkModel [] [].

Definition addVars (vs : list Var) (m : Model) : Model :=
  mkModel (vars m ++ vs) (constrs m).

Definition addConstrs (cs : list Constr) (m : Model) : Model :=
  mkModel (vars m) (constrs m ++ cs).

(** The value of an expression under an assignment of the variables. *)
Fixpoint eval (a : Var → Z) (e : LinExpr) : Z :=
  match e with
  | Const c => c
  | V v => a v
  | Add e1 e2 => eval a e1 + eval a e2
  | Sub e1 e2 => eval a e1 - eval a e2
  | Scale c e1 => c * eval a e1
  | quicksum ts => foldr Z.add 0 (eval a <$> ts)
  end.

(** The variables an expression looks up in [x] or [y]. *)
Fixpoint expr_vars (e : LinExpr) : list Var :=
  match e with
  | Const _ => []
  | V v => [v]
  | Add e1 e2 | Sub e1 e2 => expr_vars e1 ++ expr_vars e2
  | Scale _ e1 => expr_vars e1
  | quicksum ts => mjoin (expr_vars <$> ts)
  end.

Definition constr_vars (c : Constr) : list Var :=
  expr_vars (lhs c) ++ expr_vars (rhs c).

Definition holds (a : Var → Z) (c : Constr) : Prop :=
  match sense c with
  | LE => eval a (lhs c) ≤ eval a (rhs c)
  | GE => eval a (lhs c) >= eval a (rhs c)
  | EQ => eval a (lhs c) = eval a (rhs c)
  end.

#[export] Instance holds_dec a c : Decision (holds a c).
Proof. unfold holds; destruct (sense c); apply _. Defined.

Definition binary (z : Z) : Prop := z = 0 ∨ z = 1.

(** An assignment is feasible when every declared variable is 0 or 1 and
    every constraint holds. *)
Definition feasible (m : Model) (a : Var → Z) : Prop :=
  Forall (λ v, binary (a v)) (vars m) ∧ Forall (holds a) (constrs m).

#[export] Instance feasible_dec m a : Decision (feasible m a).
Proof. unfold feasible, binary; apply _. Defined.

(** What [m.optimize()] leaves behind: the [Status] attribute of the model
    and the [X] attribute of each variable.  The variables are binary, so
    the values are kept as integers; the script never reads [X] unless the
    status is 2. *)
Record Solution : Type := mkSolution { Status : Z; X : Var → Z }.

(** gurobipy keeps every constant of a constraint as a C double.  An
    integer of magnitude at most 2^53 converts without loss; a larger one is
    rounded, and one beyond the range of floats makes the conversion raise,
    so that the constraint is never built.  The embedding keeps constants as
    exact integers: it describes the runs whose constants are
    [representable], and the statements that depend on it say so. *)
Definition representable (z : Z) : Prop := - 2 ^ 53 ≤ z ≤ 2 ^ 53.

#[export] Instance representable_dec z : Decision (representable z).
Proof. unfold representable; apply _. Defined.

(** [GRB.OPTIMAL]. *)
Definition OPTIMAL : Z := 2.

End gp.
Import gp.

(** ** The model built by [find_srg] (lines 15 to 65) *)

Section Model.
Variables (n k lmd mu : Z).

Definition BigM : Z := n.

Definition x_keys : list edge := combinations2 (range n).
Definition y_keys : list triple := product3 (range n).

(** [x[u, v]], [x[tuple(sorted([a, b]))]] and [y[w, u, v]]. *)
Definition x (u v : nat) : LinExpr := V (x_ (u, v)).
Definition xs (a b : nat) : LinExpr := V (x_ (sorted2 a b)).
Definition y (w u v : nat) : LinExpr := V (y_ (w, u, v)).

Definition distinct3 (t : triple) : Prop :=
  t.1.1 ≠ t.1.2 ∧ t.1.1 ≠ t.2 ∧ t.1.2 ≠ t.2.

#[global] Instance distinct3_dec t : Decision (distinct3 t).
Proof. unfold distinct3; apply _. Defined.

(** degree is equal to k *)
Definition degree_constr (v : nat) : Constr :=
  mkConstr (quicksum ((λ u, xs v u) <$> filter (λ u, u ≠ v) (range n)))
           EQ (Const k).

(** y variables record the correct property *)
Definition y_lower (t : triple) : Constr :=
  let '(w, u, v) := t in
  mkConstr (Add (Add (Const (-1)) (xs w u)) (xs w v)) LE (Scale 2 (y w u v)).

Definition y_upper (t : triple) : Constr :=
  let '(w, u, v) := t in
  mkConstr (Scale 2 (y w u v)) LE (Add (xs w u) (xs w v)).

(** [quicksum(y[w, u, v] for w in range(n) if w != u and w != v)] *)
Definition codegree (u v : nat) : LinExpr :=
  quicksum ((λ w, y w u v) <$> filter (λ w, w ≠ u ∧ w ≠ v) (range n)).

(** for every pair of adjacent vertices, there are lmd vertices adjacent
    to both *)
Definition lambda_upper (e : edge) : Constr :=
  let '(u, v) := e in
  mkConstr (codegree u v) LE
           (Add (Const lmd) (Scale BigM (Sub (Const 1) (x u v)))).

Definition lambda_lower (e : edge) : Constr :=
  let '(u, v) := e in
  mkConstr (codegree u v) GE
           (Sub (Const lmd) (Scale BigM (Sub (Const 1) (x u v)))).

(** for every pair of non-adjacent vertices, there are mu vertices
    adjacent to both *)
Definition mu_upper (e : edge) : Constr :=
  let '(u, v) := e in
  mkConstr (codegree u v) LE (Add (Const mu) (Scale BigM (x u v))).

Definition mu_lower (e : edge) : Constr :=
  let '(u, v) := e in
  mkConstr (codegree u v) GE (Sub (Const mu) (Scale BigM (x u v))).

Definition build_model : Model :=
  let m := empty_model in
  let m := addVars (x_ <$> x_keys) m in
  let m := addVars (y_ <$> y_keys) m in
  let m := addConstrs (degree_constr <$> range n) m in
  let m := addConstrs (y_lower <$> filter distinct3 y_keys) m in
  let m := addConstrs (y_upper <$> filter distinct3 y_keys) m in
  let m := addConstrs (lambda_upper <$> x_keys) m in
  let m := addConstrs (lambda_lower <$> x_keys) m in
  let m := addConstrs (mu_upper <$> x_keys) m in
  let m := addConstrs (mu_lower <$> x_keys) m in
  m.

End Model.

(** ** The part of networkx the script uses *)

Module nx.

(** An undirected graph: the nodes in insertion order and, for each node,
    the set of its neighbours ([G._adj]). *)
Record Graph : Type := mkGraph { nodes : list nat; adj : gmap nat (gset nat) }.

Definition neighbors (G : Graph) (v : nat) : gset nat :=
  default ∅ (adj G !! v).

(** [G.add_node(v)]: a node already there is left alone. *)
Definition add_node (v : nat) (G : Graph) : Graph :=
  match adj G !! v with
  | Some _ => G
  | None => mkGraph (nodes G ++ [v]) (<[v := ∅]> (adj G))
  end.

(** [nx.Graph()]. *)
Definition null_graph : Graph := mkGraph [] ∅.

Definition add_nodes_from (vs : list nat) (G : Graph) : Graph :=
  foldl (λ G v, add_node v G) G vs.

(** [nx.empty_graph(n)]: the nodes of [range(n)], no edge.  A negative [n]
    is refused with [NetworkXError] ("Negative number of nodes not valid"),
    here [None]. *)
Definition empty_graph (n : Z) : option Graph :=
  if decide (n < 0) then None else Some (add_nodes_from (range n) null_graph).

(** [G.add_edge(u, v)]: both ends become nodes, each is recorded as a
    neighbour of the other. *)
Definition add_edge (e : edge) (G : Graph) : Graph :=
  let G := add_node e.2 (add_node e.1 G) in
  let a := <[e.1 := {[e.2]} ∪ neighbors G e.1]> (adj G) in
  mkGraph (nodes G) (<[e.2 := {[e.1]} ∪ default ∅ (a !! e.2)]> a).

Definition add_edges_from (es : list edge) (G : Graph) : Graph :=
  foldl (λ G e, add_edge e G) G es.

(** [G.degree(v)]: a self-loop counts twice. *)
Definition degree (G : Graph) (v : nat) : nat :=
  (size (neighbors G v) + (if decide (v ∈ neighbors G v) then 1 else 0))%nat.

(** [nx.to_numpy_matrix(G)], rows and columns in node order. *)
Definition to_numpy_matrix (G : Graph) : list (list Z) :=
  (λ u, (λ v, if decide (v ∈ neighbors G u) then 1 else 0) <$> nodes G)
    <$> nodes G.

End nx.
Import nx.

(** ** What a call does that its caller can see *)

(** Python values that the script prints or could return. *)
Inductive Value : Type :=
| VNone
| VStr (s : string)
| VBool (b : bool)
| VNum (z : Z)
| VEdges (E : list edge)
| VMatrix (M : list (list Z)).

(** How a call ends. *)
Inductive Completion : Type :=
| Return (v : Value)
| Raise (exc : string).

(** One run: the arguments of each [print], the models handed to
    [m.optimize()], and how the call ended. *)
Record Run : Type := mkRun {
  stdout : list (list Value);
  optimized : list Model;
  completion : Completion
}.

(** The surroundings of a run: the solver behind [m.optimize()] and the two
    readings of [time.time()]. *)
Record World : Type := mkWorld {
  optimize : Model → Solution;
  tstart : Z;
  tstop : Z
}.

Definition newline : string := String "010"%char EmptyString.

(** The test [z > 0.5] of lines 78, 91 and 96, on an integer value. *)
Definition gt_half (z : Z) : Prop := 1 < 2 * z.

#[global] Instance gt_half_dec z : Decision (gt_half z).
Proof. unfold gt_half; apply _. Defined.

(** ** [find_srg], lines 67 to 101 *)

Section Find.
Variables (n k lmd mu : Z).

(** get edges in graph (line 78) *)
Definition edges_of (X : Var → Z) : list edge :=
  filter (λ e, gt_half (X (x_ e))) (x_keys n).

(** The list whose length line 96 compares with [cmp]. *)
Definition common (X : Var → Z) (u v : nat) : list nat :=
  filter (λ w, w ≠ u ∧ w ≠ v
               ∧ gt_half (X (x_ (sorted2 w u)))
               ∧ gt_half (X (x_ (sorted2 w v)))) (range n).

(** check degree (one turn of the loop of line 86) *)
Definition check_degree (G : Graph) (correct : bool) (v : nat) : bool :=
  correct && bool_decide (Z.of_nat (degree G v) = k).

(** check lambda and mu adjacency (one turn of the loop of line 90) *)
Definition check_codegree (X : Var → Z) (correct : bool) (e : edge) : bool :=
  let cmp := if decide (gt_half (X (x_ e))) then lmd else mu in
  correct && bool_decide (cmp = Z.of_nat (length (common X e.1 e.2))).

(** check if graph strongly regular (lines 80 to 96): the flag and the
    graph when the block runs to its end, [None] when line 82 raises. *)
Definition verification_pass (X : Var → Z) (E : list edge) : option (bool * Graph) :=
  let correct := true in
  G ← empty_graph n;
  let G := add_edges_from E G in
  let correct := foldl (check_degree G) correct (range n) in
  let correct := foldl (check_codegree X) correct (x_keys n) in
  Some (correct, G).

(** The whole function.  It has no [raise] of its own: it ends by the bare
    [return] of line 75, by running off its last line, or by the exception
    of line 82, which nothing catches and which comes after the solver has
    answered and before the outcome is printed.  The constants are taken to
    be [representable] (see [gp]). *)
Definition find_srg (W : World) : Run :=
  let m := build_model n k lmd mu in
  let out := [[VStr "Start optimizing model"]] in
  let sol := optimize W m in
  let out := out ++ [[VStr "Finished optimizing in"; VNum (tstop W - tstart W);
                      VStr "seconds"]] in
  if decide (Status sol ≠ 2) then
    let out := out ++ [[VStr ("Model has no solution" +:+ newline)]] in
    mkRun out [m] (Return VNone)
  else
    let E := edges_of (X sol) in
    match verification_pass (X sol) E with
    | None => mkRun out [m] (Raise "NetworkXError")
    | Some (correct, G) =>
        let out := out ++ [[VStr "Found"; VBool correct; VStr "solution"; VEdges E]] in
        let out := out ++ [[VStr "Adjacency matrix:"]] in
        let out := out ++ [[VMatrix (to_numpy_matrix G)]] in
        mkRun out [m] (Return VNone)
    end.

End Find.

(** The lines a run prints, one list of arguments per [print]. *)
Definition start_line : list Value := [VStr "Start optimizing model"].
Definition finished_line (W : World) : list Value :=
  [VStr "Finished optimizing in"; VNum (tstop W - tstart W); VStr "seconds"].
Definition no_solution_line : list Value :=
  [VStr ("Model has no solution" +:+ newline)].
Definition found_line (correct : bool) (E : list edge) : list Value :=
  [VStr "Found"; VBool correct; VStr "solution"; VEdges E].
Definition header_line : list Value := [VStr "Adjacency matrix:"].

(** ** [main], lines 105 to 129 *)

Definition defaulting_line (n k lmd mu : Z) : list Value :=
  [VStr "Defaulting to n ="; VNum n; VStr "k ="; VNum k;
   VStr "lambda ="; VNum lmd; VStr "mu ="; VNum mu].
Definition usage_line : list Value :=
  [VStr "Usage: stronglyRegularGraphs.py <n k lambda mu>"].
Definition please_line : list Value :=
  [VStr "Please specify integers n, k, lambda, and mu"].

Section Main.
(** Python's [int] on a string: [None] when it raises. *)
Variable int : string → option Z.

(** The body of the [try] of lines 119 to 123.  The bare [except] catches
    whatever is raised there, a failed conversion or a missing argument
    alike. *)
Definition read_arguments (argv : list string) : option (Z * Z * Z * Z) :=
  n ← argv !! 1%nat ≫= int;
  k ← argv !! 2%nat ≫= int;
  lmd ← argv !! 3%nat ≫= int;
  mu ← argv !! 4%nat ≫= int;
  Some (n, k, lmd, mu).

(** [find_srg(n, k, lmd, mu)] as the last statement of [main]: what it
    prints follows what [main] printed, its value is dropped, and an
    exception would pass through. *)
Definition call_find_srg (out : list (list Value)) (n k lmd mu : Z)
    (W : World) : Run :=
  let r := find_srg n k lmd mu W in
  mkRun (out ++ stdout r) (optimized r)
        (match completion r with Return _ => Return VNone | Raise e => Raise e end).

Definition main (W : World) (argv : list string) : Run :=
  (* Petersen graph (default) *)
  let n := 10 in
  let k := 3 in
  let lmd := 0 in
  let mu := 1 in
  if decide (length argv < 2)%nat then
    call_find_srg [defaulting_line n k lmd mu] n k lmd mu W
  else if decide (length argv ≠ 5%nat) then
    mkRun [usage_line] [] (Return VNone)
  else
    match read_arguments argv with
    | Some (n, k, lmd, mu) => call_find_srg [] n k lmd mu W
    | None => mkRun [please_line; usage_line] [] (Return VNone)
    end.

End Main.

(** A reading of [int] to run [main] on: plain decimal numerals with an
    optional minus sign, on which it agrees with Python.  Python's [int]
    accepts more (a plus sign, surrounding blanks, underscores). *)
Fixpoint digits (acc : Z) (s : string) : option Z :=
  match s with
  | EmptyString => Some acc
  | String c s' =>
      let d := Z.of_nat (nat_of_ascii c) - 48 in
      if decide (0 ≤ d ≤ 9) then digits (10 * acc + d) s' else None
  end.

Definition decimal (s : string) : option Z :=
  match s with
  | EmptyString => None
  | String "-" EmptyString => None
  | String "-" s' => Z.opp <$> digits 0 s'
  | _ => digits 0 s
  end.

(** ** Strongly regular graphs, as the specification words them *)

Section SRG.
Variables (n : Z) (E : list edge).

(** The unordered pair {u, v} is an edge. *)
Definition joined (u v : nat) : Prop := (u, v) ∈ E ∨ (v, u) ∈ E.

#[global] Instance joined_dec u v : Decision (joined u v).
Proof. unfold joined; apply _. Defined.

Definition degree_in (v : nat) : nat :=
  length (filter (λ u, joined u v) (range n)).

(** Number of vertices w, other than u and v, joined to both. *)
Definition common_neighbors (u v : nat) : nat :=
  length (filter (λ w, w ≠ u ∧ w ≠ v ∧ joined w u ∧ joined w v) (range n)).

Definition strongly_regular (k lmd mu : Z) : Prop :=
  (∀ v, v ∈ range n → Z.of_nat (degree_in v) = k)
  ∧ (∀ u v, u ∈ range n → v ∈ range n → u ≠ v →
       joined u v → Z.of_nat (common_neighbors u v) = lmd)
  ∧ (∀ u v, u ∈ range n → v ∈ range n → u ≠ v →
       ¬ joined u v → Z.of_nat (common_neighbors u v) = mu).

End SRG.

(** ** Vocabulary of the statements *)

Definition sum_with {A} (f : A → Z) (l : list A) : Z := foldr Z.add 0 (f <$> l).

(** An edge list is simple on [range n] when it has no loop and no end
    outside the vertex set. *)
Definition simple_on (n : Z) (E : list edge) : Prop :=
  ∀ a b, (a, b) ∈ E → a ≠ b ∧ a ∈ range n ∧ b ∈ range n.

(** The variables are 0/1 and the two families of lines 38 to 45 hold. *)
Definition linked (n : Z) (a : Var → Z) : Prop :=
  (∀ e, e ∈ x_keys n → binary (a (x_ e)))
  ∧ (∀ t, t ∈ y_keys n → binary (a (y_ t)))
  ∧ (∀ t, t ∈ y_keys n → distinct3 t → holds a (y_lower t) ∧ holds a (y_upper t)).

Definition degrees_hold (n k : Z) (a : Var → Z) : Prop :=
  ∀ v, v ∈ range n → holds a (degree_constr n k v).

Definition codegrees_hold (n lmd mu : Z) (a : Var → Z) : Prop :=
  ∀ e, e ∈ x_keys n →
    holds a (lambda_upper n lmd e) ∧ holds a (lambda_lower n lmd e)
    ∧ holds a (mu_upper n mu e) ∧ holds a (mu_lower n mu e).

(** An assignment of the edge variables alone, completed by the only values
    the linking constraints allow for the helper variables. *)
Definition extend (xa : edge → Z) (v : Var) : Z :=
  match v with
  | x_ e => xa e
  | y_ (w, u, v) =>
      if decide (distinct3 (w, u, v))
      then xa (sorted2 w u) * xa (sorted2 w v) else 0
  end.

(** The graph whose edges are exactly the pairs with [x = 1]. *)
Definition graph_of (n : Z) (xa : edge → Z) : list edge :=
  filter (λ e, xa e = 1) (x_keys n).

(** Two solver answers that set the same edge variables. *)
Definition same_edges (n : Z) (X X' : Var → Z) : Prop :=
  ∀ e, e ∈ x_keys n → gt_half (X (x_ e)) ↔ gt_half (X' (x_ e)).

(** The graph of lines 82 and 83 and the flag of lines 81 to 96, when line
    82 does not raise. *)
Definition built (n : Z) (E : list edge) : Graph :=
  add_edges_from E (add_nodes_from (range n) null_graph).

Definition verdict (n k lmd mu : Z) (X : Var → Z) (E : list edge) : bool :=
  foldl (check_codegree n lmd mu X)
        (foldl (check_degree k (built n E)) true (range n)) (x_keys n).

Arguments codegree : simpl never.

(** ** Concrete solvers and graphs to run the definitions on *)

(** The values a solver reports for a graph: [x] is the indicator of its
    edge list and [y] what the linking constraints force. *)
Definition indicator (E : list edge) (e : edge) : Z :=
  if decide (e ∈ E) then 1 else 0.

Definition assignment_of (E : list edge) : Var → Z := extend (indicator E).

(** A solver that answers every model with the same status and values. *)
Definition fixed_world (status : Z) (a : Var → Z) : World :=
  mkWorld (λ _, mkSolution status a) 0 0.

Definition petersen : list edge :=
  [(0, 1); (1, 2); (2, 3); (3, 4); (0, 4);
   (0, 5); (1, 6); (2, 7); (3, 8); (4, 9);
   (5, 7); (7, 9); (6, 9); (6, 8); (5, 8)]%nat.

Definition K33 : list edge :=
  [(0, 3); (0, 4); (0, 5); (1, 3); (1, 4); (1, 5); (2, 3); (2, 4); (2, 5)]%nat.

Definition C5 : list edge := [(0, 1); (1, 2); (2, 3); (3, 4); (0, 4)]%nat.

(** The other way to read a 5-cycle on the same vertices, pairs in the order
    of [itertools.combinations]. *)
Definition pentagram : list edge := [(0, 2); (0, 3); (1, 3); (1, 4); (2, 4)]%nat.

(** Python's order on pairs, the order in which [itertools.combinations]
    yields the pairs of [range(n)]. *)
Definition edge_lt (e f : edge) : Prop :=
  (e.1 < f.1)%nat ∨ (e.1 = f.1 ∧ (e.2 < f.2)%nat).

(** A graph keeps an adjacency entry for each of its nodes and for nothing
    else. *)
Definition wf_graph (G : Graph) : Prop :=
  ∀ v, is_Some (adj G !! v) ↔ v ∈ nodes G.

(** [M[u][v]], if there is such an entry. *)
Definition entry (M : list (list Z)) (u v : nat) : option Z :=
  M !! u ≫= λ row, row !! v.

(** * Properties *)

(** ** The definitions at work *)

Example combinations2_4 :
  combinations2 (range 4) = [(0, 1); (0, 2); (0, 3); (1, 2); (1, 3); (2, 3)]%nat.
Proof. reflexivity. Qed.

Example product3_2_length : length (product3 (range 3)) = 27%nat.
Proof. reflexivity. Qed.

Example build_model_3_sizes :
  (length (vars (build_model 3 2 1 0)), length (constrs (build_model 3 2 1 0)))
  = (30, 27)%nat.
Proof. vm_compute. reflexivity. Qed.

(** [main] calls [find_srg(10, 3, 0, 1)] by default; the Petersen graph is a
    solution of that model, and a solver that returns it makes the run print
    it as found and verified. *)
Example petersen_feasible :
  feasible (build_model 10 3 0 1) (assignment_of petersen).
Proof. apply (bool_decide_unpack _). vm_compute. exact I. Qed.

Example petersen_run :
  stdout (find_srg 10 3 0 1 (fixed_world 2 (assignment_of petersen))) !! 2%nat
  = Some [VStr "Found"; VBool true; VStr "solution";
          VEdges [(0, 1); (0, 4); (0, 5); (1, 2); (1, 6); (2, 3); (2, 7); (3, 4);
                  (3, 8); (4, 9); (5, 7); (5, 8); (6, 8); (6, 9); (7, 9)]%nat].
Proof. vm_compute. reflexivity. Qed.

(** ** The index sets *)

Lemma elem_of_range n v : v ∈ range n ↔ Z.of_nat v < n.
Proof. unfold range. rewrite elem_of_seq. lia. Qed.

Lemma NoDup_range n : NoDup (range n).
Proof. apply NoDup_seq. Qed.

Lemma length_range n : Z.of_nat (length (range n)) = Z.max 0 n.
Proof. unfold range. rewrite length_seq. lia. Qed.

Lemma elem_of_combinations2_seq a len u v :
  (u, v) ∈ combinations2 (seq a len) ↔ (a ≤ u ∧ u < v ∧ v < a + len)%nat.
Proof.
  revert a. induction len as [|len IH]; intros a; simpl.
  - rewrite elem_of_nil. lia.
  - rewrite elem_of_app, list_elem_of_fmap, IH. split.
    + intros [(b & Heq & Hb) | H]; [|lia].
      injection Heq as -> ->. apply elem_of_seq in Hb. lia.
    + intros H. destruct (decide (u = a)) as [->|Hne]; [left|right; lia].
      exists v. split; [reflexivity|]. apply elem_of_seq. lia.
Qed.

Lemma elem_of_x_keys n u v :
  (u, v) ∈ x_keys n ↔ (u < v)%nat ∧ Z.of_nat v < n.
Proof. unfold x_keys, range. rewrite elem_of_combinations2_seq. lia. Qed.

Lemma elem_of_y_keys n w u v :
  (w, u, v) ∈ y_keys n ↔ w ∈ range n ∧ u ∈ range n ∧ v ∈ range n.
Proof.
  unfold y_keys, product3. rewrite list_elem_of_bind. split.
  - intros (w' & H & Hw). apply list_elem_of_bind in H as (u' & H & Hu).
    apply list_elem_of_bind in H as (v' & H & Hv).
    apply list_elem_of_singleton in H. by injection H as -> -> ->.
  - intros (Hw & Hu & Hv). exists w. split; [|done].
    apply list_elem_of_bind. exists u. split; [|done].
    apply list_elem_of_bind. exists v. split; [|done].
    by apply list_elem_of_singleton.
Qed.

Lemma sorted2_comm a b : sorted2 a b = sorted2 b a.
Proof. unfold sorted2. repeat case_decide; f_equal; lia. Qed.

Lemma sorted2_lt a b : (a < b)%nat → sorted2 a b = (a, b).
Proof. unfold sorted2. intros. case_decide; [lia|done]. Qed.

Lemma sorted2_in_x_keys n a b :
  a ∈ range n → b ∈ range n → a ≠ b → sorted2 a b ∈ x_keys n.
Proof.
  rewrite !elem_of_range. intros Ha Hb Hab. unfold sorted2.
  case_decide; apply elem_of_x_keys; lia.
Qed.

Lemma x_keys_in_range n u v :
  (u, v) ∈ x_keys n → u ∈ range n ∧ v ∈ range n ∧ u ≠ v.
Proof. rewrite elem_of_x_keys, !elem_of_range. lia. Qed.

(** ** Sums of 0/1 values are counts *)

Lemma eval_quicksum a {A} (f : A → LinExpr) (l : list A) :
  eval a (quicksum (f <$> l)) = sum_with (λ i, eval a (f i)) l.
Proof. simpl. unfold sum_with. by rewrite <- list_fmap_compose. Qed.

Lemma sum_with_cons {A} (f : A → Z) i l :
  sum_with f (i :: l) = f i + sum_with f l.
Proof. reflexivity. Qed.

Lemma sum_with_ext {A} (f g : A → Z) l :
  (∀ i, i ∈ l → f i = g i) → sum_with f l = sum_with g l.
Proof.
  induction l as [|i l IH]; intros H; [done|].
  rewrite !sum_with_cons, H, IH; [done| |by left].
  intros j Hj. apply H. by right.
Qed.

Lemma sum_with_count {A} (f : A → Z) (P : A → Prop) `{∀ i, Decision (P i)}
    (l : list A) :
  (∀ i, i ∈ l → (P i ∧ f i = 1) ∨ (¬ P i ∧ f i = 0)) →
  sum_with f l = Z.of_nat (length (filter P l)).
Proof.
  induction l as [|i l IH]; intros Hb; [done|].
  rewrite sum_with_cons, IH by (intros j Hj; apply Hb; by right).
  destruct (Hb i) as [[HP ->]|[HP ->]]; [by left| |].
  - rewrite filter_cons_True by done. simpl length. lia.
  - rewrite filter_cons_False by done. lia.
Qed.

Lemma filter_ext_in {A} (P Q : A → Prop)
    `{∀ i, Decision (P i)} `{∀ i, Decision (Q i)} (l : list A) :
  (∀ i, i ∈ l → P i ↔ Q i) → filter P l = filter Q l.
Proof.
  induction l as [|i l IH]; intros HPQ; [done|].
  rewrite !filter_cons, IH by (intros j Hj; apply HPQ; by right).
  destruct (decide (P i)), (decide (Q i)); try done;
    exfalso; pose proof (HPQ i ltac:(by left)); tauto.
Qed.

Lemma binary_gt_half z : binary z → gt_half z ↔ z = 1.
Proof. unfold binary, gt_half. lia. Qed.

Lemma foldl_andb {A} (p : A → bool) l b :
  foldl (λ c i, c && p i) b l = true ↔ b = true ∧ ∀ i, i ∈ l → p i = true.
Proof.
  revert b. induction l as [|i l IH]; intros b; simpl.
  - split; [|tauto]. intros ->. split; [done|]. by intros ? ?%elem_of_nil.
  - rewrite IH, andb_true_iff. split.
    + intros [[-> Hi] Hl]. split; [done|].
      intros j [->|Hj]%elem_of_cons; auto.
    + intros [-> Hl]. repeat split; [apply Hl; by left|].
      intros j Hj. apply Hl. by right.
Qed.

(** ** The graph the verification pass builds *)

Lemma neighbors_add_node v G u : neighbors (add_node v G) u = neighbors G u.
Proof.
  unfold add_node, neighbors. destruct (adj G !! v) eqn:Hv; [done|]. simpl.
  destruct (decide (v = u)) as [->|Hne].
  - by rewrite lookup_insert_eq, Hv.
  - by rewrite lookup_insert_ne.
Qed.

Lemma elem_of_neighbors_add_edge e G u v :
  u ∈ neighbors (add_edge e G) v
  ↔ u ∈ neighbors G v ∨ (v = e.1 ∧ u = e.2) ∨ (v = e.2 ∧ u = e.1).
Proof.
  unfold add_edge. set (G' := add_node e.2 (add_node e.1 G)).
  assert (HG : ∀ w, neighbors G' w = neighbors G w)
    by (intros; unfold G'; by rewrite !neighbors_add_node).
  unfold neighbors at 1. simpl.
  destruct (decide (e.2 = v)) as [<-|Hv2].
  - rewrite lookup_insert_eq. simpl.
    destruct (decide (e.1 = e.2)) as [Heq|Hne].
    + rewrite Heq, lookup_insert_eq. simpl. rewrite HG. set_solver.
    + rewrite lookup_insert_ne by done. fold (neighbors G' e.2).
      rewrite HG. set_solver.
  - rewrite lookup_insert_ne by done.
    destruct (decide (e.1 = v)) as [<-|Hv1].
    + rewrite lookup_insert_eq. simpl. rewrite HG. set_solver.
    + rewrite lookup_insert_ne by done. fold (neighbors G' v).
      rewrite HG. set_solver.
Qed.

Lemma elem_of_neighbors_add_edges_from es G u v :
  u ∈ neighbors (add_edges_from es G) v
  ↔ u ∈ neighbors G v ∨ (v, u) ∈ es ∨ (u, v) ∈ es.
Proof.
  unfold add_edges_from. revert G.
  induction es as [|[a b] es IH]; intros G; simpl.
  - rewrite !elem_of_nil. tauto.
  - rewrite IH, elem_of_neighbors_add_edge.
    rewrite !elem_of_cons. simpl. naive_solver.
Qed.

Lemma neighbors_add_nodes_from vs v :
  neighbors (add_nodes_from vs null_graph) v = ∅.
Proof.
  unfold add_nodes_from.
  assert (H0 : neighbors null_graph v = ∅) by done.
  revert H0. generalize null_graph. induction vs as [|a l IH];
    intros G HG; simpl; [done|].
  apply IH. by rewrite neighbors_add_node.
Qed.

Lemma elem_of_neighbors_built n E u v :
  u ∈ neighbors (built n E) v ↔ joined E u v.
Proof.
  unfold built.
  rewrite elem_of_neighbors_add_edges_from, neighbors_add_nodes_from.
  unfold joined. set_solver.
Qed.

Lemma degree_built n E v :
  simple_on n E → degree (built n E) v = degree_in n E v.
Proof.
  intros HE. unfold degree, degree_in.
  assert (neighbors (built n E) v
          = list_to_set (filter (λ u, joined E u v) (range n))) as ->.
  { apply set_eq. intros u.
    rewrite elem_of_list_to_set, list_elem_of_filter, elem_of_neighbors_built.
    split; [|tauto]. intros H. split; [done|].
    destruct H as [H|H]; apply HE in H; tauto. }
  rewrite size_list_to_set by apply NoDup_filter, NoDup_range.
  case_decide as Hself; [|lia]. exfalso.
  apply elem_of_list_to_set, list_elem_of_filter in Hself as [[H|H] _];
    apply HE in H; tauto.
Qed.

Lemma edges_of_simple n X : simple_on n (edges_of n X).
Proof.
  intros a b [_ H]%list_elem_of_filter. apply x_keys_in_range in H. tauto.
Qed.

Lemma elem_of_edges_of n X u v :
  (u, v) ∈ edges_of n X ↔ gt_half (X (x_ (u, v))) ∧ (u < v)%nat ∧ Z.of_nat v < n.
Proof. unfold edges_of. by rewrite list_elem_of_filter, elem_of_x_keys. Qed.

(** Two vertices are joined in the extracted graph exactly when the
    variable of their sorted pair is set. *)
Lemma joined_edges_of n X u v :
  u ∈ range n → v ∈ range n → u ≠ v →
  joined (edges_of n X) u v ↔ gt_half (X (x_ (sorted2 u v))).
Proof.
  rewrite !elem_of_range. intros Hu Hv Hne. unfold joined, sorted2.
  rewrite !elem_of_edges_of. case_decide; split; intros; intuition lia.
Qed.

Lemma joined_sym E u v : joined E u v ↔ joined E v u.
Proof. unfold joined. tauto. Qed.

Lemma joined_in_range n X u v :
  joined (edges_of n X) u v → u ∈ range n ∧ v ∈ range n ∧ u ≠ v.
Proof. intros [H|H]; apply edges_of_simple in H; intuition congruence. Qed.

(** ** The verification pass decides strong regularity *)

Lemma degree_in_edges_of n X v :
  v ∈ range n →
  degree_in n (edges_of n X) v
  = length (filter (λ u, u ≠ v ∧ gt_half (X (x_ (sorted2 v u)))) (range n)).
Proof.
  intros Hv. unfold degree_in. f_equal. apply filter_ext_in. intros u Hu. split.
  - intros H. destruct (joined_in_range _ _ _ _ H) as (_ & _ & Hne).
    split; [done|]. rewrite sorted2_comm. by apply joined_edges_of in H.
  - intros [Hne H]. apply joined_edges_of; [done..|]. by rewrite sorted2_comm.
Qed.

Lemma common_length n X u v :
  u ∈ range n → v ∈ range n →
  length (common n X u v) = common_neighbors n (edges_of n X) u v.
Proof.
  intros Hu Hv. unfold common, common_neighbors. f_equal.
  apply filter_ext_in. intros w Hw.
  split; intros (Hwu & Hwv & A & B); repeat split; try done.
  - by apply joined_edges_of.
  - by apply joined_edges_of.
  - by apply joined_edges_of in A.
  - by apply joined_edges_of in B.
Qed.

Lemma common_neighbors_sym n E u v :
  common_neighbors n E u v = common_neighbors n E v u.
Proof. unfold common_neighbors. f_equal. apply filter_ext_in. tauto. Qed.

Lemma foldl_check_degree k G l b :
  foldl (check_degree k G) b l = true
  ↔ b = true ∧ ∀ v, v ∈ l → Z.of_nat (degree G v) = k.
Proof.
  unfold check_degree.
  rewrite (foldl_andb (λ v, bool_decide (Z.of_nat (degree G v) = k))).
  by setoid_rewrite bool_decide_eq_true.
Qed.

Lemma foldl_check_codegree n lmd mu X l b :
  foldl (check_codegree n lmd mu X) b l = true
  ↔ b = true ∧ ∀ e, e ∈ l →
      (if decide (gt_half (X (x_ e))) then lmd else mu)
      = Z.of_nat (length (common n X e.1 e.2)).
Proof.
  unfold check_codegree.
  rewrite (foldl_andb (λ e, bool_decide
    ((if decide (gt_half (X (x_ e))) then lmd else mu)
     = Z.of_nat (length (common n X e.1 e.2))))).
  by setoid_rewrite bool_decide_eq_true.
Qed.

Lemma codegree_checks n lmd mu X :
  (∀ e, e ∈ x_keys n →
     (if decide (gt_half (X (x_ e))) then lmd else mu)
     = Z.of_nat (length (common n X e.1 e.2)))
  ↔ (∀ u v, u ∈ range n → v ∈ range n → u ≠ v →
       (joined (edges_of n X) u v →
          Z.of_nat (common_neighbors n (edges_of n X) u v) = lmd)
       ∧ (¬ joined (edges_of n X) u v →
          Z.of_nat (common_neighbors n (edges_of n X) u v) = mu)).
Proof.
  split.
  - intros H u v Hu Hv Hne.
    pose proof (H _ (sorted2_in_x_keys n u v Hu Hv Hne)) as He.
    rewrite (joined_edges_of n X u v Hu Hv Hne).
    assert (length (common n X (sorted2 u v).1 (sorted2 u v).2)
            = common_neighbors n (edges_of n X) u v) as Hc.
    { unfold sorted2. destruct (decide (v < u)%nat); simpl;
        rewrite common_length by done; [apply common_neighbors_sym|done]. }
    rewrite Hc in He.
    destruct (decide (gt_half (X (x_ (sorted2 u v))))); split; intros;
      (done || congruence).
  - intros H [u v] He. simpl.
    destruct (x_keys_in_range _ _ _ He) as (Hu & Hv & Hne).
    destruct (H u v Hu Hv Hne) as [H1 H2].
    rewrite common_length by done.
    rewrite (joined_edges_of n X u v Hu Hv Hne), sorted2_lt in H1, H2
      by (apply elem_of_x_keys in He; lia).
    case_decide; symmetry; auto.
Qed.

(** The verdict of lines 80 to 96 on the edges read back from the solver is
    [True] exactly when these edges form a strongly regular graph. *)
Lemma verdict_spec n k lmd mu X :
  verdict n k lmd mu X (edges_of n X) = true
  ↔ strongly_regular n (edges_of n X) k lmd mu.
Proof.
  unfold verdict, strongly_regular.
  rewrite foldl_check_codegree, foldl_check_degree, codegree_checks.
  setoid_rewrite (degree_built n _ _ (edges_of_simple n X)).
  split.
  - intros [[_ Hd] Hc]. split; [done|].
    split; intros u v Hu Hv Hne; by apply Hc.
  - intros (Hd & Hl & Hm). split; [by split|].
    intros u v Hu Hv Hne. split; [by apply Hl|by apply Hm].
Qed.

(** Line 82 raises exactly when [n] is negative; otherwise the pass runs to
    its end. *)
Lemma verification_pass_eq n k lmd mu X E :
  verification_pass n k lmd mu X E
  = if decide (n < 0) then None else Some (verdict n k lmd mu X E, built n E).
Proof. unfold verification_pass, empty_graph. by case_decide. Qed.

Lemma verification_pass_spec n k lmd mu X :
  fst <$> verification_pass n k lmd mu X (edges_of n X) = Some true
  ↔ 0 ≤ n ∧ strongly_regular n (edges_of n X) k lmd mu.
Proof.
  rewrite verification_pass_eq, <- verdict_spec. case_decide; simpl.
  - split; [done|lia].
  - split; [intros [= ->]; split; [lia|done]|by intros [_ ->]].
Qed.

(** ** The constraint families of the model, one by one *)

Lemma feasible_build_model n k lmd mu a :
  feasible (build_model n k lmd mu) a
  ↔ linked n a ∧ degrees_hold n k a ∧ codegrees_hold n lmd mu a.
Proof.
  unfold feasible, build_model, addVars, addConstrs, linked, degrees_hold,
    codegrees_hold. simpl.
  rewrite !Forall_app, !Forall_fmap, !Forall_forall. simpl.
  setoid_rewrite list_elem_of_filter. split.
  - intros ((Hx & Hy) & (((((Hd & Hyl) & Hyu) & Hlu) & Hll) & Hmu) & Hml).
    repeat split; [exact Hx|exact Hy|apply Hyl|apply Hyu|exact Hd
                   |apply Hlu|apply Hll|apply Hmu|apply Hml]; auto.
  - intros ((Hx & Hy & Hl) & Hd & Hc).
    repeat split; try done; intros t Ht; try apply Hl; try apply Hc; tauto.
Qed.

Lemma holds_degree a n k v :
  holds a (degree_constr n k v)
  ↔ sum_with (λ u, a (x_ (sorted2 v u))) (filter (λ u, u ≠ v) (range n)) = k.
Proof. unfold holds, degree_constr. cbn [sense lhs rhs]. by rewrite eval_quicksum. Qed.

Lemma holds_y_lower a w u v :
  holds a (y_lower (w, u, v))
  ↔ -1 + a (x_ (sorted2 w u)) + a (x_ (sorted2 w v)) ≤ 2 * a (y_ (w, u, v)).
Proof. done. Qed.

Lemma holds_y_upper a w u v :
  holds a (y_upper (w, u, v))
  ↔ 2 * a (y_ (w, u, v)) ≤ a (x_ (sorted2 w u)) + a (x_ (sorted2 w v)).
Proof. done. Qed.

Lemma holds_lambda_upper a n lmd u v :
  holds a (lambda_upper n lmd (u, v))
  ↔ eval a (codegree n u v) ≤ lmd + n * (1 - a (x_ (u, v))).
Proof. done. Qed.

Lemma holds_lambda_lower a n lmd u v :
  holds a (lambda_lower n lmd (u, v))
  ↔ eval a (codegree n u v) >= lmd - n * (1 - a (x_ (u, v))).
Proof. done. Qed.

Lemma holds_mu_upper a n mu u v :
  holds a (mu_upper n mu (u, v))
  ↔ eval a (codegree n u v) ≤ mu + n * a (x_ (u, v)).
Proof. done. Qed.

Lemma holds_mu_lower a n mu u v :
  holds a (mu_lower n mu (u, v))
  ↔ eval a (codegree n u v) >= mu - n * a (x_ (u, v)).
Proof. done. Qed.

Lemma filter_filter_imp {A} (P Q : A → Prop)
    `{∀ i, Decision (P i)} `{∀ i, Decision (Q i)} (l : list A) :
  (∀ i, P i → Q i) → filter P (filter Q l) = filter P l.
Proof.
  intros HPQ. rewrite list_filter_filter. apply filter_ext_in.
  intros i _. split; [tauto|auto].
Qed.

(** The helper variable [y[w,u,v]] is the product of the two edge variables
    it is linked to. *)
Lemma y_is_product n a w u v :
  linked n a → w ∈ range n → u ∈ range n → v ∈ range n →
  w ≠ u → w ≠ v → u ≠ v →
  let both := gt_half (a (x_ (sorted2 w u))) ∧ gt_half (a (x_ (sorted2 w v))) in
  (both ∧ a (y_ (w, u, v)) = 1) ∨ (¬ both ∧ a (y_ (w, u, v)) = 0).
Proof.
  intros (Hx & Hy & Hl) Hw Hu Hv Hwu Hwv Huv.
  assert (Ht : (w, u, v) ∈ y_keys n) by by apply elem_of_y_keys.
  destruct (Hl _ Ht) as [Hlo Hup]; [done|].
  apply (proj1 (holds_y_lower _ _ _ _)) in Hlo.
  apply (proj1 (holds_y_upper _ _ _ _)) in Hup.
  pose proof (Hy _ Ht) as By.
  pose proof (Hx _ (sorted2_in_x_keys n w u Hw Hu Hwu)) as B1.
  pose proof (Hx _ (sorted2_in_x_keys n w v Hw Hv Hwv)) as B2.
  unfold binary, gt_half in *. simpl. lia.
Qed.

(** The sum the four codegree families bound is the number of common
    neighbours that line 96 counts. *)
Lemma codegree_count n a u v :
  linked n a → u ∈ range n → v ∈ range n → u ≠ v →
  eval a (codegree n u v) = Z.of_nat (length (common n a u v)).
Proof.
  intros Hl Hu Hv Huv. unfold codegree, common. rewrite eval_quicksum.
  rewrite (sum_with_count _ (λ w, w ≠ u ∧ w ≠ v
             ∧ gt_half (a (x_ (sorted2 w u))) ∧ gt_half (a (x_ (sorted2 w v))))).
  - rewrite filter_filter_imp; [done|tauto].
  - intros w [[Hwu Hwv] Hw]%list_elem_of_filter. simpl.
    destruct (y_is_product n a w u v) as [[Hb ->]|[Hb ->]]; try done; tauto.
Qed.

Lemma degree_count n a v :
  (∀ e, e ∈ x_keys n → binary (a (x_ e))) → v ∈ range n →
  sum_with (λ u, a (x_ (sorted2 v u))) (filter (λ u, u ≠ v) (range n))
  = Z.of_nat (degree_in n (edges_of n a) v).
Proof.
  intros Hx Hv. rewrite degree_in_edges_of by done.
  rewrite (sum_with_count _ (λ u, u ≠ v ∧ gt_half (a (x_ (sorted2 v u))))).
  - rewrite filter_filter_imp; [done|tauto].
  - intros u [Huv Hu]%list_elem_of_filter.
    pose proof (Hx _ (sorted2_in_x_keys n v u Hv Hu ltac:(congruence))) as B.
    unfold binary, gt_half in *. lia.
Qed.

Lemma sum_with_bounds {A} (f : A → Z) (l : list A) :
  (∀ i, i ∈ l → binary (f i)) → 0 ≤ sum_with f l ≤ Z.of_nat (length l).
Proof.
  induction l as [|i l IH]; intros Hb; [done|].
  rewrite sum_with_cons. simpl length.
  pose proof (Hb i ltac:(by left)) as Bi. unfold binary in Bi.
  pose proof (IH ltac:(intros j Hj; apply Hb; by right)). lia.
Qed.

Lemma codegree_bounds n a u v :
  (∀ t, t ∈ y_keys n → binary (a (y_ t))) → u ∈ range n → v ∈ range n →
  0 ≤ eval a (codegree n u v) ≤ n.
Proof.
  intros Hy Hu Hv. unfold codegree. rewrite eval_quicksum.
  pose proof (sum_with_bounds (λ w, eval a (y w u v))
                (filter (λ w, w ≠ u ∧ w ≠ v) (range n))) as Hs.
  pose proof (length_filter (λ w, w ≠ u ∧ w ≠ v) (range n)) as Hf.
  pose proof (length_range n) as Hr.
  pose proof (proj1 (elem_of_range _ _) Hu) as Hu'.
  assert (∀ w, w ∈ filter (λ w, w ≠ u ∧ w ≠ v) (range n)
               → binary (eval a (y w u v))) as Hb.
  { intros w [_ Hw]%list_elem_of_filter. apply Hy. by apply elem_of_y_keys. }
  specialize (Hs Hb). lia.
Qed.

(** ** Feasible assignments are strongly regular graphs *)

Lemma strongly_regular_checks n k lmd mu X :
  strongly_regular n (edges_of n X) k lmd mu
  ↔ (∀ v, v ∈ range n → Z.of_nat (degree_in n (edges_of n X) v) = k)
    ∧ (∀ e, e ∈ x_keys n →
         (if decide (gt_half (X (x_ e))) then lmd else mu)
         = Z.of_nat (length (common n X e.1 e.2))).
Proof.
  unfold strongly_regular. rewrite codegree_checks. split.
  - intros (Hd & Hl & Hm). split; [done|].
    intros u v Hu Hv Hne. split; [by apply Hl|by apply Hm].
  - intros [Hd Hc]. split; [done|].
    split; intros u v Hu Hv Hne; by apply Hc.
Qed.

Lemma feasible_strongly_regular n k lmd mu a :
  feasible (build_model n k lmd mu) a →
  strongly_regular n (edges_of n a) k lmd mu.
Proof.
  intros (Hl & Hd & Hc)%feasible_build_model.
  apply strongly_regular_checks. split.
  - intros v Hv. rewrite <- degree_count by (done || apply Hl).
    by apply holds_degree, Hd.
  - intros [u v] He. simpl.
    destruct (x_keys_in_range _ _ _ He) as (Hu & Hv & Hne).
    rewrite <- (codegree_count n a u v) by done.
    destruct (Hc _ He) as (H1 & H2 & H3 & H4).
    apply (proj1 (holds_lambda_upper _ _ _ _ _)) in H1.
    apply (proj1 (holds_lambda_lower _ _ _ _ _)) in H2.
    apply (proj1 (holds_mu_upper _ _ _ _ _)) in H3.
    apply (proj1 (holds_mu_lower _ _ _ _ _)) in H4.
    destruct Hl as (Hx & _). pose proof (Hx _ He) as B.
    unfold binary, gt_half in *. case_decide; destruct B as [B|B];
      rewrite B in *; lia.
Qed.

Lemma strongly_regular_feasible n k lmd mu a :
  linked n a → lmd - mu ≤ n → mu - lmd ≤ n →
  strongly_regular n (edges_of n a) k lmd mu →
  feasible (build_model n k lmd mu) a.
Proof.
  intros Hl Hlm Hml [Hd Hc]%strongly_regular_checks.
  apply feasible_build_model. split; [done|]. split.
  - intros v Hv. apply holds_degree.
    rewrite degree_count by (done || apply Hl). by apply Hd.
  - intros [u v] He.
    destruct (x_keys_in_range _ _ _ He) as (Hu & Hv & Hne).
    rewrite holds_lambda_upper, holds_lambda_lower, holds_mu_upper,
      holds_mu_lower, (codegree_count n a u v) by done.
    specialize (Hc _ He). simpl in Hc. rewrite <- Hc.
    destruct Hl as (Hx & _). pose proof (Hx _ He) as B.
    unfold binary, gt_half in *. case_decide; destruct B as [B|B];
      rewrite B in *; lia.
Qed.

Lemma extend_linked n xa :
  (∀ e, e ∈ x_keys n → binary (xa e)) → linked n (extend xa).
Proof.
  intros Hx. split; [exact Hx|]. split.
  - intros [[w u] v] Ht. simpl. case_decide as Hd; [|by left].
    apply elem_of_y_keys in Ht as (Hw & Hu & Hv). destruct Hd as (? & ? & ?).
    pose proof (Hx _ (sorted2_in_x_keys n w u Hw Hu ltac:(done))) as B1.
    pose proof (Hx _ (sorted2_in_x_keys n w v Hw Hv ltac:(done))) as B2.
    unfold binary in *. destruct B1 as [-> | ->], B2 as [-> | ->]; lia.
  - intros [[w u] v] Ht Hd.
    rewrite holds_y_lower, holds_y_upper. simpl.
    rewrite decide_True by done.
    apply elem_of_y_keys in Ht as (Hw & Hu & Hv). destruct Hd as (? & ? & ?).
    pose proof (Hx _ (sorted2_in_x_keys n w u Hw Hu ltac:(done))) as B1.
    pose proof (Hx _ (sorted2_in_x_keys n w v Hw Hv ltac:(done))) as B2.
    unfold binary in *. destruct B1 as [-> | ->], B2 as [-> | ->]; lia.
Qed.

Lemma edges_of_graph_of n a xa :
  (∀ e, e ∈ x_keys n → binary (xa e)) →
  (∀ e, e ∈ x_keys n → a (x_ e) = xa e) →
  edges_of n a = graph_of n xa.
Proof.
  intros Hb Hx. apply filter_ext_in. intros e He.
  rewrite Hx by done. by apply binary_gt_half, Hb.
Qed.

(** ** What the verification pass reads *)

Lemma foldl_ext_in {A B} (f g : A → B → A) (l : list B) (a : A) :
  (∀ b i, i ∈ l → f b i = g b i) → foldl f a l = foldl g a l.
Proof.
  revert a. induction l as [|i l IH]; intros a H; [done|]. simpl.
  rewrite H by by left. apply IH. intros b j Hj. apply H. by right.
Qed.

Lemma edges_of_ext n X X' : same_edges n X X' → edges_of n X = edges_of n X'.
Proof. intros H. apply filter_ext_in. intros e He. by apply H. Qed.

Lemma common_ext n X X' u v :
  same_edges n X X' → u ∈ range n → v ∈ range n →
  common n X u v = common n X' u v.
Proof.
  intros H Hu Hv. apply filter_ext_in. intros w Hw.
  pose proof (λ Hne, H _ (sorted2_in_x_keys n w u Hw Hu Hne)) as H1.
  pose proof (λ Hne, H _ (sorted2_in_x_keys n w v Hw Hv Hne)) as H2.
  split; intros (Hwu & Hwv & A & B); repeat split; try done;
    (by apply H1) || (by apply H2).
Qed.

Lemma verdict_ext n k lmd mu X X' E :
  same_edges n X X' →
  verdict n k lmd mu X E = verdict n k lmd mu X' E.
Proof.
  intros H. unfold verdict.
  apply foldl_ext_in. intros b [u v] He. unfold check_codegree. simpl.
  destruct (x_keys_in_range _ _ _ He) as (Hu & Hv & _).
  rewrite (common_ext n X X' u v) by done.
  destruct (decide (gt_half (X (x_ (u, v))))) as [Hg|Hg],
           (decide (gt_half (X' (x_ (u, v))))) as [Hg'|Hg']; try done;
    exfalso; apply (H _ He) in Hg || apply (H _ He) in Hg'; done.
Qed.

Lemma verification_pass_ext n k lmd mu X X' E :
  same_edges n X X' →
  verification_pass n k lmd mu X E = verification_pass n k lmd mu X' E.
Proof. intros H. by rewrite !verification_pass_eq, (verdict_ext _ _ _ _ _ _ _ H). Qed.

Lemma same_edges_assignment_of n X :
  same_edges n (assignment_of (edges_of n X)) X.
Proof.
  intros [u v] He. unfold assignment_of, indicator. simpl.
  apply elem_of_x_keys in He.
  case_decide as Hd; rewrite elem_of_edges_of in Hd; unfold gt_half in *;
    [split; [tauto|lia]|split; [lia|tauto]].
Qed.

Lemma edges_of_assignment_of n X :
  edges_of n (assignment_of (edges_of n X)) = edges_of n X.
Proof. apply edges_of_ext, same_edges_assignment_of. Qed.

(** ** The two ways a run ends *)

Lemma find_srg_no_solution n k lmd mu W :
  Status (optimize W (build_model n k lmd mu)) ≠ 2 →
  find_srg n k lmd mu W
  = mkRun [start_line; finished_line W; no_solution_line]
          [build_model n k lmd mu] (Return VNone).
Proof. intros H. unfold find_srg. by rewrite decide_True. Qed.

Lemma find_srg_solution n k lmd mu W :
  Status (optimize W (build_model n k lmd mu)) = 2 → 0 ≤ n →
  let X := X (optimize W (build_model n k lmd mu)) in
  let E := edges_of n X in
  find_srg n k lmd mu W
  = mkRun [start_line; finished_line W; found_line (verdict n k lmd mu X E) E;
           header_line; [VMatrix (to_numpy_matrix (built n E))]]
          [build_model n k lmd mu] (Return VNone).
Proof.
  intros H Hn. unfold find_srg. rewrite decide_False by (intros ?; done).
  cbv zeta. rewrite verification_pass_eq. by rewrite decide_False by lia.
Qed.

Lemma find_srg_negative n k lmd mu W :
  Status (optimize W (build_model n k lmd mu)) = 2 → n < 0 →
  find_srg n k lmd mu W
  = mkRun [start_line; finished_line W] [build_model n k lmd mu]
          (Raise "NetworkXError").
Proof.
  intros H Hn. unfold find_srg. rewrite decide_False by (intros ?; done).
  cbv zeta. rewrite verification_pass_eq. by rewrite decide_True by lia.
Qed.

(** ** Counting paths of length two: the parameter identity *)

Lemma sum_with_filter {A} (f : A → Z) (P : A → Prop) `{∀ i, Decision (P i)}
    (l : list A) :
  sum_with f (filter P l) = sum_with (λ i, if decide (P i) then f i else 0) l.
Proof.
  induction l as [|i l IH]; [done|].
  rewrite filter_cons.
  rewrite (sum_with_cons (λ i, if decide (P i) then f i else 0)).
  destruct (decide (P i)); [rewrite sum_with_cons|]; rewrite IH; lia.
Qed.

Lemma sum_with_add {A} (f g : A → Z) (l : list A) :
  sum_with (λ i, f i + g i) l = sum_with f l + sum_with g l.
Proof.
  induction l as [|i l IH]; [done|]. rewrite !sum_with_cons, IH. lia.
Qed.

Lemma sum_with_scale {A} (c : Z) (f : A → Z) (l : list A) :
  sum_with (λ i, c * f i) l = c * sum_with f l.
Proof.
  induction l as [|i l IH]; [change (0 = c * 0); lia|].
  rewrite !sum_with_cons, IH. ring.
Qed.

Lemma sum_with_const {A} (c : Z) (l : list A) :
  sum_with (λ _, c) l = c * Z.of_nat (length l).
Proof.
  induction l as [|i l IH]; [change (0 = c * Z.of_nat 0); lia|].
  rewrite sum_with_cons, IH. simpl length. lia.
Qed.

Lemma sum_with_swap {A B} (g : A → B → Z) (l1 : list A) (l2 : list B) :
  sum_with (λ i, sum_with (λ j, g i j) l2) l1
  = sum_with (λ j, sum_with (λ i, g i j) l1) l2.
Proof.
  induction l1 as [|i l1 IH].
  - change (0 = sum_with (λ _, 0) l2). rewrite sum_with_const. lia.
  - rewrite sum_with_cons, IH, <- sum_with_add. done.
Qed.

Lemma sum_with_remove {A} `{EqDecision A} (f : A → Z) (P : A → Prop)
    `{∀ i, Decision (P i)} (x : A) (l : list A) :
  NoDup l → x ∈ l → P x →
  sum_with f (filter P l) = f x + sum_with f (filter (λ i, i ≠ x ∧ P i) l).
Proof.
  intros Hnd Hx HP. rewrite !sum_with_filter.
  induction Hnd as [|i l Hi Hnd IH]; [by apply elem_of_nil in Hx|].
  rewrite !sum_with_cons. apply elem_of_cons in Hx as [<-|Hx].
  - rewrite decide_True by done. rewrite decide_False by tauto.
    assert (sum_with (λ i, if decide (P i) then f i else 0) l
            = sum_with (λ i, if decide (i ≠ x ∧ P i) then f i else 0) l) as ->;
      [|lia].
    apply sum_with_ext. intros j Hj.
    assert (j ≠ x) by (intros ->; done).
    destruct (decide (P j)), (decide (j ≠ x ∧ P j)); tauto || done.
  - rewrite IH by done.
    assert (i ≠ x) by (intros ->; done).
    destruct (decide (P i)), (decide (i ≠ x ∧ P i)); tauto || lia.
Qed.

(** A sum over ordered pairs, taken in the other order. *)
Lemma sum_with_filter_swap {A} (h : A → A → Z) (P : A → Prop)
    (Q : A → A → Prop) `{∀ i, Decision (P i)} `{∀ i j, Decision (Q i j)}
    (l : list A) :
  sum_with (λ i, sum_with (λ j, h i j) (filter (Q i) l)) (filter P l)
  = sum_with (λ j, sum_with (λ i, h i j) (filter (λ i, P i ∧ Q i j) l)) l.
Proof.
  rewrite sum_with_filter.
  rewrite (sum_with_ext _ (λ i, sum_with
             (λ j, if decide (P i ∧ Q i j) then h i j else 0) l)).
  - rewrite sum_with_swap. apply sum_with_ext. intros j _.
    by rewrite sum_with_filter.
  - intros i _. rewrite sum_with_filter. destruct (decide (P i)).
    + apply sum_with_ext. intros j _.
      destruct (decide (Q i j)), (decide (P i ∧ Q i j)); tauto || done.
    + symmetry. rewrite (sum_with_ext _ (λ _, 0)).
      * rewrite sum_with_const. lia.
      * intros j _. by rewrite decide_False by tauto.
Qed.

Section Counting.
Variables (n k lmd mu : Z) (a : Var → Z).
Hypothesis Hn : 1 ≤ n.
Hypothesis Hfeas : feasible (build_model n k lmd mu) a.

(** The edge variable of the unordered pair {u, w}. *)
Local Abbreviation A u w := (a (x_ (sorted2 u w))).
Local Abbreviation others := (filter (λ u : nat, u ≠ 0%nat) (range n)).

Lemma zero_in_range : 0%nat ∈ range n.
Proof using Hn. apply elem_of_range. lia. Qed.

Lemma feasible_linked : linked n a.
Proof using Hfeas. by apply feasible_build_model in Hfeas as (H & _). Qed.

Lemma A_binary u w : u ∈ range n → w ∈ range n → u ≠ w → binary (A u w).
Proof using Hfeas.
  intros Hu Hw Hne. destruct feasible_linked as (Hx & _).
  by apply Hx, sorted2_in_x_keys.
Qed.

Lemma degree_sum w :
  w ∈ range n → sum_with (λ u, A w u) (filter (λ u, u ≠ w) (range n)) = k.
Proof using Hfeas.
  intros Hw. apply feasible_build_model in Hfeas as (_ & Hd & _).
  by apply holds_degree, Hd.
Qed.

Lemma length_others : Z.of_nat (length others) = n - 1.
Proof using Hn.
  unfold range. destruct (Z.to_nat n) as [|m] eqn:Hm; [lia|].
  simpl seq. rewrite filter_cons_False by (intros H; by apply H).
  rewrite (filter_ext_in _ (λ _, True)).
  - assert (∀ l : list nat, filter (λ _, True) l = l) as ->.
    { induction l as [|i l IH]; [done|]. by rewrite filter_cons_True, IH. }
    rewrite length_seq. lia.
  - intros i Hi%elem_of_seq. split; [done|]. intros _. lia.
Qed.

(** Around vertex 0, every other vertex [u] sees [lmd] or [mu] common
    neighbours according to the edge variable of {0, u}. *)
Lemma codegree_at_zero u :
  u ∈ range n → u ≠ 0%nat →
  eval a (codegree n 0 u) = mu + (lmd - mu) * A 0%nat u.
Proof using Hfeas Hn.
  intros Hu Hne.
  assert (He : (0%nat, u) ∈ x_keys n)
    by (apply elem_of_x_keys; apply elem_of_range in Hu; lia).
  pose proof (A_binary 0%nat u zero_in_range Hu ltac:(done)) as B.
  rewrite sorted2_lt in * by lia.
  apply feasible_build_model in Hfeas as (_ & _ & Hc).
  destruct (Hc _ He) as (H1 & H2 & H3 & H4).
  apply (proj1 (holds_lambda_upper _ _ _ _ _)) in H1.
  apply (proj1 (holds_lambda_lower _ _ _ _ _)) in H2.
  apply (proj1 (holds_mu_upper _ _ _ _ _)) in H3.
  apply (proj1 (holds_mu_lower _ _ _ _ _)) in H4.
  destruct B as [B|B]; rewrite B in *; lia.
Qed.

Lemma codegree_products u :
  u ∈ range n → u ≠ 0%nat →
  eval a (codegree n 0 u)
  = sum_with (λ w, A w 0%nat * A w u)
             (filter (λ w, w ≠ 0%nat ∧ w ≠ u) (range n)).
Proof using Hfeas Hn.
  intros Hu Hne. unfold codegree. rewrite eval_quicksum.
  apply sum_with_ext. intros w [[Hw0 Hwu] Hw]%list_elem_of_filter. simpl.
  pose proof (A_binary w 0%nat Hw zero_in_range Hw0) as B1.
  pose proof (A_binary w u Hw Hu Hwu) as B2.
  destruct (y_is_product n a w 0%nat u feasible_linked Hw zero_in_range Hu)
    as [[Hb ->]|[Hb ->]]; try done;
    unfold binary, gt_half in *; nia.
Qed.

(** The neighbours of 0 each have [k - 1] further neighbours. *)
Lemma paths_through w :
  w ∈ range n →
  sum_with (λ u, A w 0%nat * A w u)
    (filter (λ u, u ≠ 0%nat ∧ (w ≠ 0%nat ∧ w ≠ u)) (range n))
  = if decide (w ≠ 0%nat) then (k - 1) * A 0%nat w else 0.
Proof using Hfeas Hn.
  intros Hw. rewrite sum_with_scale. case_decide as Hw0.
  - rewrite (filter_ext_in _ (λ u, u ≠ 0%nat ∧ u ≠ w))
      by (intros u _; split; intros; intuition congruence).
    pose proof (degree_sum w Hw) as Hd.
    rewrite (sum_with_remove _ _ 0%nat) in Hd
      by (done || apply NoDup_range || apply zero_in_range).
    pose proof (A_binary w 0%nat Hw zero_in_range Hw0) as B.
    rewrite (sorted2_comm 0 w).
    assert (sum_with (λ u, A w u) (filter (λ u, u ≠ 0%nat ∧ u ≠ w) (range n))
            = k - A w 0%nat) as -> by lia.
    destruct B as [-> | ->]; lia.
  - rewrite (filter_ext_in _ (λ _, False)) by (intros u _; tauto).
    assert (∀ l : list nat, filter (λ _, False) l = []) as ->.
    { induction l as [|i l IH]; [done|].
      rewrite filter_cons_False by tauto. exact IH. }
    change (sum_with (λ u, A w u) []) with 0. lia.
Qed.

(** The identity every feasible parameter tuple has to satisfy. *)
Lemma feasible_identity : k * (k - 1 - lmd) = (n - k - 1) * mu.
Proof using Hfeas Hn.
  assert (sum_with (λ u, eval a (codegree n 0 u)) others
          = mu * (n - 1) + (lmd - mu) * k) as Hleft.
  { rewrite (sum_with_ext _ (λ u, mu + (lmd - mu) * A 0%nat u)).
    - rewrite sum_with_add, sum_with_const, sum_with_scale, length_others.
      by rewrite (degree_sum 0%nat zero_in_range).
    - intros u [Hne Hu]%list_elem_of_filter. by apply codegree_at_zero. }
  assert (sum_with (λ u, eval a (codegree n 0 u)) others = (k - 1) * k)
    as Hright.
  { rewrite (sum_with_ext _ (λ u, sum_with (λ w, A w 0%nat * A w u)
                (filter (λ w, w ≠ 0%nat ∧ w ≠ u) (range n))))
      by (intros u [Hne Hu]%list_elem_of_filter; by apply codegree_products).
    rewrite (sum_with_filter_swap (λ u w, A w 0%nat * A w u)
               (λ u, u ≠ 0%nat) (λ u w, w ≠ 0%nat ∧ w ≠ u)).
    rewrite (sum_with_ext _ (λ w, if decide (w ≠ 0%nat)
                                  then (k - 1) * A 0%nat w else 0))
      by (intros w Hw; by apply paths_through).
    rewrite <- sum_with_filter, sum_with_scale.
    by rewrite (degree_sum 0%nat zero_in_range). }
  lia.
Qed.

(** Vertex 0 has between 0 and n - 1 neighbours. *)
Lemma feasible_degree_bounds : 0 ≤ k ≤ n - 1.
Proof using Hfeas Hn.
  pose proof (degree_sum 0%nat zero_in_range) as Hd.
  pose proof (sum_with_bounds (λ u, A 0%nat u) others) as Hb.
  rewrite length_others, Hd in Hb. apply Hb.
  intros u [Hne Hu]%list_elem_of_filter.
  apply A_binary; [apply zero_in_range|done|congruence].
Qed.

End Counting.



Lemma strongly_regular_no_vertex n E k lmd mu :
  n ≤ 0 → strongly_regular n E k lmd mu.
Proof.
  intros Hn. assert (range n = []) as Hr.
  { unfold range. by replace (Z.to_nat n) with 0%nat by lia. }
  unfold strongly_regular. rewrite Hr.
  split; [by intros ? ?%elem_of_nil|]. split; by intros ? ? ?%elem_of_nil.
Qed.

(** * The properties of the specification *)

(** A printed line is the [Found] line only if it is. *)
Lemma found_line_in_run c E n k lmd mu W :
  found_line c E ∈ stdout (find_srg n k lmd mu W) →
  let sol := optimize W (build_model n k lmd mu) in
  Status sol = 2
  ∧ 0 ≤ n
  ∧ E = edges_of n (X sol)
  ∧ c = verdict n k lmd mu (X sol) (edges_of n (X sol)).
Proof.
  intros Hin sol. destruct (decide (Status sol = 2)) as [Hs|Hs].
  - destruct (decide (n < 0)) as [Hn|Hn].
    + rewrite (find_srg_negative n k lmd mu W Hs Hn) in Hin. simpl in Hin.
      rewrite !elem_of_cons, elem_of_nil in Hin.
      destruct Hin as [H|[H|[]]]; discriminate H.
    + rewrite (find_srg_solution n k lmd mu W Hs) in Hin by lia. simpl in Hin.
      rewrite !elem_of_cons, elem_of_nil in Hin.
      destruct Hin as [H|[H|[H|[H|[H|[]]]]]]; try discriminate H.
      injection H as -> ->. split; [done|]. split; [lia|done].
  - rewrite (find_srg_no_solution n k lmd mu W Hs) in Hin. simpl in Hin.
    rewrite !elem_of_cons, elem_of_nil in Hin.
    destruct Hin as [H|[H|[H|[]]]]; discriminate H.
Qed.

(** A second, independent pass that only sees the witness gives the
    verdict of the first. *)
Lemma verification_pass_on_witness n k lmd mu X :
  verification_pass n k lmd mu (assignment_of (edges_of n X)) (edges_of n X)
  = verification_pass n k lmd mu X (edges_of n X).
Proof. apply verification_pass_ext, same_edges_assignment_of. Qed.


Lemma find_srg_completion n k lmd mu W :
  completion (find_srg n k lmd mu W)
  = if decide (Status (optimize W (build_model n k lmd mu)) = 2 ∧ n < 0)
    then Raise "NetworkXError" else Return VNone.
Proof.
  destruct (decide (Status (optimize W (build_model n k lmd mu)) = 2)) as [Hs|Hs].
  - destruct (decide (n < 0)) as [Hn|Hn].
    + rewrite (find_srg_negative n k lmd mu W Hs Hn). by rewrite decide_True.
    + rewrite (find_srg_solution n k lmd mu W Hs) by lia.
      by rewrite decide_False by tauto.
  - rewrite (find_srg_no_solution n k lmd mu W Hs).
    by rewrite decide_False by tauto.
Qed.

Lemma edges_of_inj n X X' :
  edges_of n X = edges_of n X' → same_edges n X X'.
Proof.
  intros Heq e He.
  assert (∀ Y, gt_half (Y (x_ e)) ↔ e ∈ edges_of n Y) as Hin.
  { intros Y. unfold edges_of. rewrite list_elem_of_filter. tauto. }
  by rewrite !Hin, Heq.
Qed.

(** C1.  Whenever a run prints the line [Found True solution E], the edge
    list [E] is a strongly regular graph with the requested parameters
    (every vertex of [range n] has degree [k], joined pairs have [lmd] common
    neighbours, distinct pairs that are not joined have [mu]), and a
    verification pass run on the witness alone accepts it too.  For [n >= 0]
    the line is printed whenever the solver reports status 2 with values that
    are feasible for the model. *)
Theorem found_graph_is_strongly_regular n k lmd mu W :
  let m := build_model n k lmd mu in
  let sol := optimize W m in
  let run := find_srg n k lmd mu W in
  (∀ E, found_line true E ∈ stdout run →
        strongly_regular n E k lmd mu
        ∧ fst <$> verification_pass n k lmd mu (assignment_of E) E = Some true)
  ∧ (0 ≤ n → Status sol = 2 → feasible m (X sol) →
     stdout run !! 2%nat = Some (found_line true (edges_of n (X sol)))).
Proof.
  intros m sol run. split.
  - intros E (Hs & Hn & -> & Hv)%found_line_in_run.
    rewrite verification_pass_on_witness.
    symmetry in Hv. apply verdict_spec in Hv. split; [done|].
    by apply verification_pass_spec.
  - intros Hn Hs Hf. unfold run. rewrite (find_srg_solution n k lmd mu W Hs Hn).
    simpl. do 2 f_equal.
    by apply verdict_spec, feasible_strongly_regular.
Qed.

Lemma found_graph_is_strongly_regular_witness :
  strongly_regular 10 (edges_of 10 (assignment_of petersen)) 3 0 1.
Proof.
  destruct (found_graph_is_strongly_regular 10 3 0 1
              (fixed_world OPTIMAL (assignment_of petersen))) as [Hsrg Hrun].
  apply Hsrg. apply (list_elem_of_lookup_2 _ 2%nat). apply Hrun.
  - lia.
  - reflexivity.
  - apply (bool_decide_unpack _). vm_compute. exact I.
Defined.

(** C7.  For distinct vertices [u], [v] and 0/1 values linked as the model
    requires, the sum of the helper variables [y[w,u,v]] that the codegree
    constraints bound, and the length of the list the verification pass
    builds, both equal the number of vertices [w], other than [u] and [v],
    with {w, u} and {w, v} both edges. *)
Theorem common_neighbor_counts_agree n a u v :
  linked n a → u ∈ range n → v ∈ range n → u ≠ v →
  let E := edges_of n a in
  eval a (codegree n u v) = Z.of_nat (common_neighbors n E u v)
  ∧ length (common n a u v) = common_neighbors n E u v.
Proof.
  intros Hl Hu Hv Hne E. rewrite codegree_count by done.
  by rewrite common_length.
Qed.

Lemma common_neighbor_counts_agree_witness :
  eval (assignment_of C5) (codegree 5 0 2)
  = Z.of_nat (common_neighbors 5 (edges_of 5 (assignment_of C5)) 0 2)
  ∧ length (common 5 (assignment_of C5) 0 2) = 1%nat.
Proof.
  assert (Hf : feasible (build_model 5 2 0 1) (assignment_of C5))
    by (apply (bool_decide_unpack _); vm_compute; exact I).
  destruct (common_neighbor_counts_agree 5 (assignment_of C5) 0 2) as [H1 H2].
  - by apply feasible_build_model in Hf as (Hl & _).
  - apply elem_of_range. lia.
  - apply elem_of_range. lia.
  - lia.
  - split; [exact H1|]. vm_compute. reflexivity.
Defined.

(** C8.  The verdict is a function of the witness: a second pass, run on
    the values that encode the extracted edge list, reads back the same edge
    list and ends as the first pass ended, with the same flag and the same
    graph; a witness accepted once is accepted again. *)
Theorem verification_pass_idempotent n k lmd mu X :
  let E := edges_of n X in
  let first := verification_pass n k lmd mu X E in
  let second :=
    verification_pass n k lmd mu (assignment_of E) (edges_of n (assignment_of E)) in
  edges_of n (assignment_of E) = E
  ∧ second = first
  ∧ (fst <$> first = Some true → fst <$> second = Some true).
Proof.
  intros E first second.
  assert (second = first) as Heq.
  { unfold second, first, E.
    by rewrite edges_of_assignment_of, verification_pass_on_witness. }
  split; [apply edges_of_assignment_of|]. split; [done|]. by rewrite Heq.
Qed.

(** C9.  With [0 <= lmd <= n] and [0 <= mu <= n], a 0/1 assignment of the
    edge variables extends to a feasible assignment of the model exactly when
    the graph of the pairs with [x = 1] is strongly regular; and a codegree
    constraint whose edge variable switches it off holds whatever the 0/1
    helper variables are. *)
Theorem model_feasible_iff_strongly_regular n k lmd mu xa :
  2 ≤ n → 0 ≤ lmd ≤ n → 0 ≤ mu ≤ n →
  (∀ e, e ∈ x_keys n → binary (xa e)) →
  ((∃ a, (∀ e, e ∈ x_keys n → a (x_ e) = xa e)
         ∧ feasible (build_model n k lmd mu) a)
   ↔ strongly_regular n (graph_of n xa) k lmd mu)
  ∧ (∀ a e, (∀ t, t ∈ y_keys n → binary (a (y_ t))) → e ∈ x_keys n →
       (a (x_ e) = 0 →
          holds a (lambda_upper n lmd e) ∧ holds a (lambda_lower n lmd e))
       ∧ (a (x_ e) = 1 →
          holds a (mu_upper n mu e) ∧ holds a (mu_lower n mu e))).
Proof.
  intros Hn Hlmd Hmu Hb. split; [split|].
  - intros (a & Hx & Hf).
    rewrite <- (edges_of_graph_of n a xa Hb Hx).
    by apply feasible_strongly_regular.
  - intros Hsrg. exists (extend xa). split; [done|].
    apply strongly_regular_feasible; [by apply extend_linked|lia|lia|].
    by rewrite (edges_of_graph_of n (extend xa) xa Hb).
  - intros a [u v] Hy He.
    destruct (x_keys_in_range _ _ _ He) as (Hu & Hv & _).
    pose proof (codegree_bounds n a u v Hy Hu Hv) as Hc.
    rewrite holds_lambda_upper, holds_lambda_lower, holds_mu_upper,
      holds_mu_lower.
    split; intros ->; lia.
Qed.

Lemma model_feasible_iff_strongly_regular_witness :
  ((∃ a, (∀ e, e ∈ x_keys 5 → a (x_ e) = indicator C5 e)
         ∧ feasible (build_model 5 2 0 1) a)
   ↔ strongly_regular 5 (graph_of 5 (indicator C5)) 2 0 1)
  ∧ feasible (build_model 5 2 0 1) (assignment_of C5).
Proof.
  split.
  - apply (model_feasible_iff_strongly_regular 5 2 0 1 (indicator C5));
      [lia|lia|lia|].
    intros e _. unfold indicator, binary. case_decide; auto.
  - apply (bool_decide_unpack _). vm_compute. exact I.
Defined.













(** C5, as stated, fails: the solver claims a solution of (3, 2, 1, 0) with
    no edge at all; the pass finds the mismatch, and the run prints
    [Found False solution []] and returns normally. *)
Lemma mismatch_is_not_raised :
  let run := find_srg 3 2 1 0 (fixed_world OPTIMAL (assignment_of [])) in
  stdout run !! 2%nat = Some (found_line false [])
  ∧ completion run = Return VNone
  ∧ completion run ≠ Raise "EngineInvariantViolation".
Proof.
  cbv zeta. split; [vm_compute; reflexivity|].
  rewrite find_srg_completion. by rewrite decide_False by lia.
Qed.

(** C5, amended.  When the solver reports status 2 and the edges read back
    are not a strongly regular graph with the requested parameters, the run
    prints the [Found] line with the verdict [False] and the edge list, and
    returns [None]; no exception is raised, and the no-solution line is not
    printed. *)
Theorem mismatch_is_printed n k lmd mu W :
  let sol := optimize W (build_model n k lmd mu) in
  let E := edges_of n (X sol) in
  let run := find_srg n k lmd mu W in
  Status sol = 2 → ¬ strongly_regular n E k lmd mu →
  stdout run !! 2%nat = Some (found_line false E)
  ∧ completion run = Return VNone
  ∧ no_solution_line ∉ stdout run.
Proof.
  intros sol E run Hs Hnot.
  assert (0 ≤ n) as Hn.
  { destruct (decide (0 ≤ n)) as [|Hneg]; [done|]. exfalso. apply Hnot.
    apply strongly_regular_no_vertex. lia. }
  assert (verdict n k lmd mu (X sol) E = false) as Hv.
  { apply not_true_is_false. intros Hv. by apply Hnot, verdict_spec. }
  subst sol E run. rewrite (find_srg_solution n k lmd mu W Hs Hn). cbv zeta.
  rewrite Hv. simpl.
  split; [done|]. split; [done|].
  rewrite !elem_of_cons, elem_of_nil.
  intros [H|[H|[H|[H|[H|[]]]]]]; discriminate H.
Qed.

Lemma mismatch_is_printed_witness :
  let run := find_srg 3 2 1 0 (fixed_world OPTIMAL (assignment_of [])) in
  stdout run !! 2%nat
  = Some (found_line false (edges_of 3 (assignment_of [])))
  ∧ completion run = Return VNone
  ∧ no_solution_line ∉ stdout run.
Proof.
  apply (mismatch_is_printed 3 2 1 0 (fixed_world OPTIMAL (assignment_of []))).
  - reflexivity.
  - intros H%verdict_spec. vm_compute in H. discriminate H.
Defined.

(** C6, as stated, fails: the script leaves the choice among the solutions
    of the model to the solver.  On (5, 2, 0, 1) a solver may answer with the
    pentagon or with the pentagram; both answers are feasible, both runs get
    status 2 with no budget at play, and the two runs print different
    witnesses. *)
Lemma two_runs_two_witnesses :
  let W := fixed_world OPTIMAL (assignment_of C5) in
  let W' := fixed_world OPTIMAL (assignment_of pentagram) in
  feasible (build_model 5 2 0 1) (X (optimize W (build_model 5 2 0 1)))
  ∧ feasible (build_model 5 2 0 1) (X (optimize W' (build_model 5 2 0 1)))
  ∧ stdout (find_srg 5 2 0 1 W) !! 2%nat
    = Some (found_line true [(0, 1); (0, 4); (1, 2); (2, 3); (3, 4)]%nat)
  ∧ stdout (find_srg 5 2 0 1 W') !! 2%nat
    = Some (found_line true [(0, 2); (0, 3); (1, 3); (1, 4); (2, 4)]%nat)
  ∧ find_srg 5 2 0 1 W ≠ find_srg 5 2 0 1 W'.
Proof.
  cbv zeta.
  assert (stdout (find_srg 5 2 0 1 (fixed_world OPTIMAL (assignment_of C5)))
            !! 2%nat
          = Some (found_line true [(0, 1); (0, 4); (1, 2); (2, 3); (3, 4)]%nat))
    as H1
    by (vm_compute; reflexivity).
  assert (stdout (find_srg 5 2 0 1 (fixed_world OPTIMAL (assignment_of pentagram)))
            !! 2%nat
          = Some (found_line true [(0, 2); (0, 3); (1, 3); (1, 4); (2, 4)]%nat))
    as H2
    by (vm_compute; reflexivity).
  split; [apply (bool_decide_unpack _); vm_compute; exact I|].
  split; [apply (bool_decide_unpack _); vm_compute; exact I|].
  split; [exact H1|]. split; [exact H2|].
  intros Heq. rewrite Heq, H2 in H1. discriminate H1.
Qed.

(** C6, amended.  The model handed to the solver depends on the arguments
    alone, and the witness a run prints is the set of pairs whose edge
    variable the solver set above 0.5.  So two runs on the same arguments
    with [n >= 0] that both get status 2 print the same report from the
    [Found] line on, witness, verdict and matrix, exactly when the two
    solvers set the same edge variables; and the two runs are the same
    throughout exactly when, in addition, the elapsed times of the second
    line agree. *)
Theorem same_choice_same_report n k lmd mu W W' :
  let m := build_model n k lmd mu in
  let sol := optimize W m in
  let sol' := optimize W' m in
  let run := find_srg n k lmd mu W in
  let run' := find_srg n k lmd mu W' in
  0 ≤ n → Status sol = 2 → Status sol' = 2 →
  optimized run = [m] ∧ optimized run' = [m]
  ∧ (∃ correct, stdout run !! 2%nat
                = Some (found_line correct (edges_of n (X sol))))
  ∧ (drop 2 (stdout run) = drop 2 (stdout run')
     ↔ same_edges n (X sol) (X sol'))
  ∧ (run = run'
     ↔ same_edges n (X sol) (X sol')
       ∧ tstop W - tstart W = tstop W' - tstart W').
Proof.
  intros m sol sol' run run' Hn Hs Hs'. unfold run, run'.
  rewrite (find_srg_solution n k lmd mu W Hs Hn),
    (find_srg_solution n k lmd mu W' Hs' Hn). cbv zeta. fold m sol sol'.
  split; [done|]. split; [done|]. split; [by eexists|].
  assert (same_edges n (X sol) (X sol') →
          edges_of n (X sol) = edges_of n (X sol')
          ∧ verdict n k lmd mu (X sol) (edges_of n (X sol))
            = verdict n k lmd mu (X sol') (edges_of n (X sol'))) as Hsame.
  { intros H. rewrite <- (edges_of_ext n _ _ H). split; [done|].
    by apply verdict_ext. }
  split; [split|split].
  - simpl. intros [= _ HE _]. by apply edges_of_inj.
  - intros [HE Hv]%Hsame. simpl. by rewrite Hv, HE.
  - intros [= Ht _ HE _]. split; [by apply edges_of_inj|done].
  - intros [[HE Hv]%Hsame Ht]. unfold finished_line. by rewrite Hv, HE, Ht.
Qed.

Lemma same_choice_same_report_witness :
  let W := fixed_world OPTIMAL (assignment_of K33) in
  let W' := mkWorld (λ _, mkSolution OPTIMAL (assignment_of K33)) 5 9 in
  (drop 2 (stdout (find_srg 6 3 0 3 W)) = drop 2 (stdout (find_srg 6 3 0 3 W'))
   ↔ same_edges 6 (assignment_of K33) (assignment_of K33))
  ∧ find_srg 6 3 0 3 W ≠ find_srg 6 3 0 3 W'.
Proof.
  cbv zeta.
  destruct (same_choice_same_report 6 3 0 3
              (fixed_world OPTIMAL (assignment_of K33))
              (mkWorld (λ _, mkSolution OPTIMAL (assignment_of K33)) 5 9))
    as (_ & _ & _ & Hdrop & Hrun); [lia|reflexivity|reflexivity|].
  split; [exact Hdrop|]. intros [_ Ht]%Hrun. simpl in Ht. lia.
Defined.

(** * Further properties of the script *)

Lemma elem_of_quicksum_vars {A} (f : A → LinExpr) (l : list A) v :
  v ∈ expr_vars (quicksum (f <$> l)) ↔ ∃ i, i ∈ l ∧ v ∈ expr_vars (f i).
Proof.
  simpl. rewrite <- list_fmap_compose, list_elem_of_join. split.
  - intros (vs & Hv & (i & -> & Hi)%list_elem_of_fmap). by exists i.
  - intros (i & Hi & Hv). exists (expr_vars (f i)). split; [done|].
    apply list_elem_of_fmap. by exists i.
Qed.

(** The four codegree families look up the helper variables of their sum
    and the edge variable of their pair. *)
Ltac codegree_case H Hv Hsum Hx :=
  let u := fresh "u" in let w := fresh "w" in
  let He := fresh "He" in let Hr := fresh "Hr" in
  destruct H as ([u w] & -> & He);
  destruct (Hsum u w He _ Hv) as [|Hr]; [done|]; simpl in Hr;
  apply list_elem_of_singleton in Hr as ->; by apply Hx.

(** Every lookup [x[...]] or [y[...]] made while the constraints are built
    finds its key: the variables of each constraint are declared. *)
Theorem constraint_variables_are_declared n k lmd mu c v :
  c ∈ constrs (build_model n k lmd mu) → v ∈ constr_vars c →
  v ∈ vars (build_model n k lmd mu).
Proof.
  assert (Hx : ∀ e, e ∈ x_keys n → x_ e ∈ vars (build_model n k lmd mu)).
  { intros e He. simpl. apply elem_of_app. left. by apply list_elem_of_fmap_2. }
  assert (Hy : ∀ t, t ∈ y_keys n → y_ t ∈ vars (build_model n k lmd mu)).
  { intros t Ht. simpl. apply elem_of_app. right. by apply list_elem_of_fmap_2. }
  assert (Hsum : ∀ u w, (u, w) ∈ x_keys n → ∀ r,
            v ∈ expr_vars (codegree n u w) ++ r →
            v ∈ vars (build_model n k lmd mu) ∨ v ∈ r).
  { intros u w He r [Hv|Hv]%elem_of_app; [left|by right].
    destruct (x_keys_in_range _ _ _ He) as (Hu & Hw & _).
    apply elem_of_quicksum_vars in Hv as (i & [_ Hi]%list_elem_of_filter & Hv).
    apply list_elem_of_singleton in Hv as ->. by apply Hy, elem_of_y_keys. }
  unfold constr_vars. intros Hc Hv. simpl constrs in Hc.
  rewrite !elem_of_app, !list_elem_of_fmap in Hc.
  destruct Hc as [[[[[[H|H]|H]|H]|H]|H]|H].
  - destruct H as (u & -> & Hu).
    apply elem_of_app in Hv as [Hv|Hv]; [|by apply elem_of_nil in Hv].
    apply (elem_of_quicksum_vars (λ w, xs u w)
             (filter (λ w, w ≠ u) (range n))) in Hv
      as (w & [Hne Hw]%list_elem_of_filter & Hv).
    apply list_elem_of_singleton in Hv as ->.
    apply Hx, sorted2_in_x_keys; done || congruence.
  - destruct H as ([[w u] t] & -> & [(? & ? & ?) Ht]%list_elem_of_filter).
    pose proof Ht as (Hw & Hu & Hz)%elem_of_y_keys. simpl in Hv.
    rewrite !elem_of_cons, elem_of_nil in Hv.
    destruct Hv as [->|[->|[->|[]]]];
      [by apply Hx, sorted2_in_x_keys..|by apply Hy].
  - destruct H as ([[w u] t] & -> & [(? & ? & ?) Ht]%list_elem_of_filter).
    pose proof Ht as (Hw & Hu & Hz)%elem_of_y_keys. simpl in Hv.
    rewrite !elem_of_cons, elem_of_nil in Hv.
    destruct Hv as [->|[->|[->|[]]]];
      [by apply Hy|by apply Hx, sorted2_in_x_keys..].
  - codegree_case H Hv Hsum Hx.
  - codegree_case H Hv Hsum Hx.
  - codegree_case H Hv Hsum Hx.
  - codegree_case H Hv Hsum Hx.
Qed.

Lemma constraint_variables_are_declared_witness :
  x_ (0, 2)%nat ∈ vars (build_model 3 2 1 0).
Proof.
  apply (constraint_variables_are_declared 3 2 1 0 (degree_constr 3 2 2)).
  - apply (list_elem_of_lookup_2 _ 2%nat). vm_compute. reflexivity.
  - apply (bool_decide_unpack _). vm_compute. exact I.
Defined.

(** The verification pass ends with the verdict [True] exactly when [n] is
    not negative, so that line 82 does not raise, and the edges read back
    from the solver form a strongly regular graph with the requested
    parameters. *)
Theorem verdict_decides_strong_regularity n k lmd mu W :
  let sol := optimize W (build_model n k lmd mu) in
  let E := edges_of n (X sol) in
  fst <$> verification_pass n k lmd mu (X sol) E = Some true
  ↔ 0 ≤ n ∧ strongly_regular n E k lmd mu.
Proof. intros sol E. apply verification_pass_spec. Qed.

(** The model can only be feasible, for [n >= 1], when the parameters
    satisfy [k (k - 1 - lmd) = (n - k - 1) mu] and [0 <= k < n]. *)
Theorem feasible_parameters n k lmd mu a :
  1 ≤ n → feasible (build_model n k lmd mu) a →
  k * (k - 1 - lmd) = (n - k - 1) * mu ∧ 0 ≤ k < n.
Proof.
  intros Hn Hf. split; [by apply (feasible_identity n k lmd mu a)|].
  pose proof (feasible_degree_bounds n k lmd mu a Hn Hf). lia.
Qed.

Lemma feasible_parameters_witness :
  3 * (3 - 1 - 0) = (10 - 3 - 1) * 1 ∧ 0 ≤ 3 < 10.
Proof.
  apply (feasible_parameters 10 3 0 1 (assignment_of petersen)); [lia|].
  apply (bool_decide_unpack _). vm_compute. exact I.
Defined.

Example decimal_examples :
  decimal <$> ["10"; "-3"; "007"; "3.5"; "k"; "-"]%string
  = [Some 10; Some (-3); Some 7; None; None; None].
Proof. reflexivity. Qed.

(** ** [main]: when the solver is reached *)







Example main_on_arguments W :
  main decimal W ["stronglyRegularGraphs.py"; "5"; "2"; "0"; "1"]%string
  = call_find_srg [] 5 2 0 1 W
  ∧ main decimal W ["stronglyRegularGraphs.py"; "5"; "two"; "0"; "1"]%string
    = mkRun [please_line; usage_line] [] (Return VNone)
  ∧ main decimal W ["stronglyRegularGraphs.py"; "5"; "2"]%string
    = mkRun [usage_line] [] (Return VNone).
Proof. repeat split. Qed.

(** ** Fewer than two vertices *)

Lemma filter_none {A} (P : A → Prop) `{∀ i, Decision (P i)} (l : list A) :
  (∀ i, i ∈ l → ¬ P i) → filter P l = [].
Proof.
  induction l as [|i l IH]; intros Hn; [done|].
  rewrite filter_cons_False by (apply Hn; by left).
  apply IH. intros j Hj. apply Hn. by right.
Qed.

Lemma range_small n : n ≤ 1 → range n = [] ∨ (n = 1 ∧ range n = [0%nat]).
Proof.
  intros Hn. unfold range. destruct (Z.to_nat n) as [|[|m]] eqn:Hm;
    [by left|right; split; [lia|done]|lia].
Qed.

Lemma x_keys_small n : n ≤ 1 → x_keys n = [].
Proof.
  intros Hn. unfold x_keys.
  by destruct (range_small n Hn) as [->|[_ ->]].
Qed.

Lemma degree_in_nil n v : degree_in n [] v = 0%nat.
Proof.
  unfold degree_in. rewrite filter_none; [done|].
  intros u _ [H|H]; by apply elem_of_nil in H.
Qed.

Lemma common_neighbors_nil n u v : common_neighbors n [] u v = 0%nat.
Proof.
  unfold common_neighbors. rewrite filter_none; [done|].
  intros w _ (_ & _ & [H|H] & _); by apply elem_of_nil in H.
Qed.

Lemma strongly_regular_small n k lmd mu :
  n ≤ 1 → strongly_regular n [] k lmd mu ↔ n ≤ 0 ∨ k = 0.
Proof.
  intros Hn. unfold strongly_regular.
  destruct (range_small n Hn) as [Hr|[-> Hr]]; rewrite Hr; split.
  - intros _. left. unfold range in Hr.
    destruct (Z.to_nat n) eqn:Hz; [lia|done].
  - intros _. split; [by intros ? ?%elem_of_nil|].
    split; by intros ? ? ?%elem_of_nil.
  - intros (Hd & _). right. specialize (Hd 0%nat ltac:(by left)).
    rewrite degree_in_nil in Hd. lia.
  - intros [?| ->]; [lia|]. split; [intros v _; by rewrite degree_in_nil|].
    split; intros u v ->%list_elem_of_singleton ->%list_elem_of_singleton;
      done.
Qed.

Lemma zero_feasible_small n k lmd mu :
  n ≤ 1 → n ≤ 0 ∨ k = 0 → feasible (build_model n k lmd mu) (λ _, 0).
Proof.
  intros Hn Hk. apply feasible_build_model. split; [|split].
  - split; [by left|]. split; [by left|].
    intros [[w u] v] (Hw & Hu & _)%elem_of_y_keys (Hwu & _). simpl in Hwu.
    destruct (range_small n Hn) as [Hr|[_ Hr]]; rewrite Hr in Hw, Hu.
    + by apply elem_of_nil in Hw.
    + apply list_elem_of_singleton in Hw, Hu. congruence.
  - intros v Hv. apply holds_degree.
    destruct (range_small n Hn) as [Hr|[-> Hr]]; rewrite Hr in Hv |- *.
    + by apply elem_of_nil in Hv.
    + apply list_elem_of_singleton in Hv as ->.
      destruct Hk as [?| ->]; [lia|]. reflexivity.
  - intros e He. rewrite x_keys_small in He by done. by apply elem_of_nil in He.
Qed.

(** With at most one vertex there is no edge variable and [lmd] and [mu]
    play no part: the model has a feasible assignment exactly when there is
    no vertex at all or [k = 0].  With [n] equal to 0 or 1 and a degree
    gurobipy takes as it is, a run whose solver reports status 2 prints the
    empty edge list, with the verdict [True] in exactly that case.  With a
    negative [n], a run whose solver reports status 2 prints no [Found] line:
    it ends in the [NetworkXError] of line 82. *)
Theorem fewer_than_two_vertices n k lmd mu W :
  n ≤ 1 →
  let m := build_model n k lmd mu in
  let run := find_srg n k lmd mu W in
  ((∃ a, feasible m a) ↔ n ≤ 0 ∨ k = 0)
  ∧ (0 ≤ n → representable k → Status (optimize W m) = 2 →
     ∃ correct,
       stdout run !! 2%nat = Some (found_line correct [])
       ∧ (correct = true ↔ n ≤ 0 ∨ k = 0))
  ∧ (n < 0 → Status (optimize W m) = 2 →
     stdout run = [start_line; finished_line W]
     ∧ completion run = Raise "NetworkXError").
Proof.
  intros Hn m run.
  assert (Hedges : ∀ X, edges_of n X = [])
    by (intros X; unfold edges_of; by rewrite x_keys_small).
  split; [|split].
  - split.
    + intros [a Hf%feasible_strongly_regular]. rewrite Hedges in Hf.
      by apply strongly_regular_small in Hf.
    + intros Hk. exists (λ _, 0). by apply zero_feasible_small.
  - intros Hpos _ Hs. unfold run.
    rewrite (find_srg_solution n k lmd mu W Hs Hpos). cbv zeta.
    exists (verdict n k lmd mu (X (optimize W m))
              (edges_of n (X (optimize W m)))).
    split; [simpl; unfold found_line; repeat f_equal; apply Hedges|].
    rewrite verdict_spec, Hedges. by apply strongly_regular_small.
  - intros Hneg Hs. unfold run.
    by rewrite (find_srg_negative n k lmd mu W Hs Hneg).
Qed.

Lemma fewer_than_two_vertices_witness :
  (∃ a, feasible (build_model 1 0 7 (-2)) a)
  ∧ stdout (find_srg 1 0 7 (-2) (fixed_world OPTIMAL (λ _, 0))) !! 2%nat
    = Some (found_line true []).
Proof.
  destruct (fewer_than_two_vertices 1 0 7 (-2) (fixed_world OPTIMAL (λ _, 0)))
    as (Hf & Hrun & _); [lia|].
  split; [apply Hf; by right|]. vm_compute. reflexivity.
Defined.

(** ** How far apart [lmd] and [mu] may be *)

Lemma feasible_parameter_gap n k lmd mu a :
  2 ≤ n → feasible (build_model n k lmd mu) a → - n ≤ lmd - mu ≤ n.
Proof.
  intros Hn (Hl & _ & Hc)%feasible_build_model.
  assert (He : (0, 1)%nat ∈ x_keys n) by (apply elem_of_x_keys; lia).
  destruct (Hc _ He) as (H1 & H2 & H3 & H4).
  apply (proj1 (holds_lambda_upper _ _ _ _ _)) in H1.
  apply (proj1 (holds_lambda_lower _ _ _ _ _)) in H2.
  apply (proj1 (holds_mu_upper _ _ _ _ _)) in H3.
  apply (proj1 (holds_mu_lower _ _ _ _ _)) in H4.
  destruct Hl as (Hx & _). destruct (Hx _ He) as [B|B]; rewrite B in *; lia.
Qed.

Lemma strongly_regular_empty n lmd : strongly_regular n [] 0 lmd 0.
Proof.
  split; [intros v _; by rewrite degree_in_nil|]. split.
  - intros u v _ _ _ [H|H]; by apply elem_of_nil in H.
  - intros u v _ _ _ _. by rewrite common_neighbors_nil.
Qed.

(** For [n >= 2] the model describes the strongly regular graphs with
    parameters (n, k, lmd, mu) exactly when [lmd] and [mu] differ by at most
    [BigM = n]: a 0/1 assignment of the edge variables extends to a feasible
    one if and only if its graph is strongly regular and [|lmd - mu| <= n].
    Outside this range the model rejects graphs that meet the definition:
    the graph without edges is strongly regular with [k = 0], [mu = 0] and
    any [lmd], but the model is infeasible as soon as [|lmd| > n]. *)
Theorem feasible_exactly n k lmd mu xa :
  2 ≤ n → (∀ e, e ∈ x_keys n → binary (xa e)) →
  ((∃ a, (∀ e, e ∈ x_keys n → a (x_ e) = xa e)
         ∧ feasible (build_model n k lmd mu) a)
   ↔ strongly_regular n (graph_of n xa) k lmd mu ∧ - n ≤ lmd - mu ≤ n)
  ∧ (∀ l, l < - n ∨ n < l →
       strongly_regular n [] 0 l 0
       ∧ ∀ a, ¬ feasible (build_model n 0 l 0) a).
Proof.
  intros Hn Hb. split; [split|].
  - intros (a & Hx & Hf). split.
    + rewrite <- (edges_of_graph_of n a xa Hb Hx).
      by apply feasible_strongly_regular.
    + by apply (feasible_parameter_gap n k lmd mu a).
  - intros [Hsrg Hgap]. exists (extend xa). split; [done|].
    apply strongly_regular_feasible; [by apply extend_linked|lia|lia|].
    by rewrite (edges_of_graph_of n (extend xa) xa Hb).
  - intros l Hl. split; [apply strongly_regular_empty|].
    intros a Hf%feasible_parameter_gap; lia.
Qed.

Lemma feasible_exactly_witness :
  strongly_regular 2 [] 0 5 0 ∧ ∀ a, ¬ feasible (build_model 2 0 5 0) a.
Proof.
  apply (feasible_exactly 2 0 0 0 (indicator [])); [lia| |lia].
  intros e _. by left.
Defined.

(** ** The edge list that is printed *)

Lemma NoDup_combinations2_seq a len : NoDup (combinations2 (seq a len)).
Proof.
  revert a. induction len as [|len IH]; intros a; simpl; [constructor|].
  apply NoDup_app. split; [|split; [|apply IH]].
  - apply NoDup_fmap_2; [|apply NoDup_seq]. by intros b b' [= ->].
  - intros e (b & -> & Hb)%list_elem_of_fmap Hin.
    apply elem_of_combinations2_seq in Hin. lia.
Qed.

Lemma sorted_combinations2_seq a len :
  StronglySorted edge_lt (combinations2 (seq a len)).
Proof.
  revert a. induction len as [|len IH]; intros a; simpl; [constructor|].
  apply StronglySorted_app_2; [| |apply IH].
  - intros e [u v] (b & -> & Hb)%list_elem_of_fmap Hin.
    apply elem_of_combinations2_seq in Hin. left. simpl. lia.
  - apply (StronglySorted_fmap _ lt).
    + intros b b' Hlt. right. simpl. done.
    + generalize (S a). clear. induction len as [|len IH]; intros b; simpl;
        constructor; [apply IH|].
      apply Forall_forall. intros c Hc%elem_of_seq. lia.
Qed.

Lemma StronglySorted_filter {A} (R : relation A) (P : A → Prop)
    `{∀ i, Decision (P i)} (l : list A) :
  StronglySorted R l → StronglySorted R (filter P l).
Proof.
  induction 1 as [|i l Hs IH Hall]; [constructor|].
  rewrite filter_cons. destruct (decide (P i)); [|done].
  constructor; [done|]. rewrite Forall_forall in Hall |- *.
  intros j [_ Hj]%list_elem_of_filter. by apply Hall.
Qed.

(** The edge list on the [Found] line, whatever the verdict, names every
    edge once, smaller end first and both ends in [range(n)], in the order
    of Python's tuples. *)
Theorem printed_edges_are_sorted_pairs n k lmd mu W correct E :
  found_line correct E ∈ stdout (find_srg n k lmd mu W) →
  NoDup E
  ∧ StronglySorted edge_lt E
  ∧ ∀ u v, (u, v) ∈ E → (u < v)%nat ∧ Z.of_nat v < n.
Proof.
  intros (_ & _ & -> & _)%found_line_in_run. unfold edges_of, x_keys, range.
  split; [apply NoDup_filter, NoDup_combinations2_seq|].
  split; [apply StronglySorted_filter, sorted_combinations2_seq|].
  intros u v [_ Hin]%list_elem_of_filter.
  apply elem_of_combinations2_seq in Hin. lia.
Qed.

Lemma printed_edges_are_sorted_pairs_witness :
  NoDup (edges_of 10 (assignment_of petersen))
  ∧ StronglySorted edge_lt (edges_of 10 (assignment_of petersen)).
Proof.
  destruct (printed_edges_are_sorted_pairs 10 3 0 1
              (fixed_world OPTIMAL (assignment_of petersen)) true
              (edges_of 10 (assignment_of petersen))) as (H1 & H2 & _);
    [|by split].
  apply (list_elem_of_lookup_2 _ 2%nat). vm_compute. reflexivity.
Defined.

(** ** Counting the edges *)

Lemma sum_with_app {A} (f : A → Z) (l1 l2 : list A) :
  sum_with f (l1 ++ l2) = sum_with f l1 + sum_with f l2.
Proof.
  induction l1 as [|i l1 IH]; [done|].
  change ((i :: l1) ++ l2) with (i :: (l1 ++ l2)).
  rewrite !sum_with_cons, IH. lia.
Qed.

Lemma sum_with_fmap {A B} (f : B → Z) (g : A → B) (l : list A) :
  sum_with f (g <$> l) = sum_with (λ i, f (g i)) l.
Proof. unfold sum_with. by rewrite <- list_fmap_compose. Qed.

Lemma filter_all {A} (P : A → Prop) `{∀ i, Decision (P i)} (l : list A) :
  (∀ i, i ∈ l → P i) → filter P l = l.
Proof.
  induction l as [|i l IH]; intros Hall; [done|].
  rewrite filter_cons_True by (apply Hall; by left).
  f_equal. apply IH. intros j Hj. apply Hall. by right.
Qed.

(** Summing over the ordered pairs of distinct vertices counts every
    unordered pair twice. *)
Lemma sum_pairs_seq (f : edge → Z) a len :
  sum_with (λ v, sum_with (λ u, f (sorted2 v u))
                          (filter (λ u, u ≠ v) (seq a len))) (seq a len)
  = 2 * sum_with f (combinations2 (seq a len)).
Proof.
  revert a. induction len as [|len IH]; intros a; [done|].
  simpl seq. simpl combinations2.
  rewrite sum_with_cons, sum_with_app, sum_with_fmap.
  rewrite filter_cons_False by (intros H; by apply H).
  rewrite filter_all by (intros u Hu%elem_of_seq; lia).
  assert (sum_with (λ u, f (sorted2 a u)) (seq (S a) len)
          = sum_with (λ u, f (a, u)) (seq (S a) len)) as ->.
  { apply sum_with_ext. intros u Hu%elem_of_seq. by rewrite sorted2_lt by lia. }
  assert (sum_with (λ v, sum_with (λ u, f (sorted2 v u))
                      (filter (λ u, u ≠ v) (a :: seq (S a) len)))
            (seq (S a) len)
          = sum_with (λ v, f (a, v)) (seq (S a) len)
            + 2 * sum_with f (combinations2 (seq (S a) len))) as ->.
  { rewrite <- IH, <- sum_with_add. apply sum_with_ext.
    intros v Hv%elem_of_seq.
    rewrite filter_cons_True by lia. rewrite sum_with_cons.
    by rewrite (sorted2_comm v a), sorted2_lt by lia. }
  lia.
Qed.

Lemma edge_count n X k :
  0 ≤ n →
  (∀ v, v ∈ range n → Z.of_nat (degree_in n (edges_of n X) v) = k) →
  2 * Z.of_nat (length (edges_of n X)) = n * k.
Proof.
  intros Hn Hd.
  set (f := λ e : edge, if decide (gt_half (X (x_ e))) then 1 else 0).
  assert (Z.of_nat (length (edges_of n X)) = sum_with f (x_keys n)) as ->.
  { unfold edges_of. symmetry. apply sum_with_count.
    intros e _. unfold f. case_decide; tauto. }
  unfold x_keys, range. rewrite <- sum_pairs_seq. fold (range n).
  rewrite (sum_with_ext _ (λ _, k)).
  - rewrite sum_with_const, length_range, Z.max_r by lia. lia.
  - intros v Hv. rewrite <- (Hd v Hv), degree_in_edges_of by done.
    rewrite (sum_with_count _ (λ u, u ≠ v ∧ gt_half (X (x_ (sorted2 v u))))).
    + rewrite filter_filter_imp; [done|tauto].
    + intros u [Hne _]%list_elem_of_filter. unfold f. case_decide; tauto.
Qed.

(** A graph in which every one of [n] vertices has degree [k] has [n k / 2]
    edges: an edge list printed with the verdict [True] has exactly that
    many entries, every feasible assignment sets exactly that many edge
    variables, and the model is infeasible when [n k] is odd. *)
Theorem edges_are_half_the_degrees n k lmd mu :
  0 ≤ n →
  (∀ W E, found_line true E ∈ stdout (find_srg n k lmd mu W) →
          2 * Z.of_nat (length E) = n * k)
  ∧ (∀ a, feasible (build_model n k lmd mu) a →
          2 * Z.of_nat (length (edges_of n a)) = n * k)
  ∧ (Z.odd (n * k) = true → ∀ a, ¬ feasible (build_model n k lmd mu) a).
Proof.
  intros Hn.
  assert (∀ a, feasible (build_model n k lmd mu) a →
               2 * Z.of_nat (length (edges_of n a)) = n * k) as Hfeas.
  { intros a [Hd _]%feasible_strongly_regular. by apply edge_count. }
  split; [|split; [done|]].
  - intros W E (_ & _ & -> & Hv)%found_line_in_run.
    symmetry in Hv. apply verdict_spec in Hv as [Hd _].
    by apply edge_count.
  - intros Hodd a Hf%Hfeas. rewrite <- Hf, Z.odd_mul in Hodd. done.
Qed.

Lemma edges_are_half_the_degrees_witness :
  2 * Z.of_nat (length (edges_of 10 (assignment_of petersen))) = 10 * 3.
Proof.
  destruct (edges_are_half_the_degrees 10 3 0 1) as (_ & Hf & _); [lia|].
  apply Hf. apply (bool_decide_unpack _). vm_compute. exact I.
Defined.

(** ** The adjacency matrix that is printed *)

Lemma add_node_wf v G :
  wf_graph G →
  wf_graph (add_node v G)
  ∧ nodes (add_node v G)
    = if decide (v ∈ nodes G) then nodes G else nodes G ++ [v].
Proof.
  unfold wf_graph. intros Hwf. unfold add_node.
  destruct (adj G !! v) eqn:Hv.
  - split; [done|]. rewrite decide_True; [done|]. by apply Hwf.
  - assert (v ∉ nodes G) as Hnot.
    { intros Hin%Hwf. rewrite Hv in Hin. by destruct Hin. }
    rewrite decide_False by done. split; [|done].
    intros w. simpl. rewrite elem_of_app, list_elem_of_singleton, <- Hwf.
    destruct (decide (v = w)) as [->|Hne].
    + rewrite lookup_insert_eq. split; [by right|by eexists].
    + rewrite lookup_insert_ne by done. split; [by left|].
      intros [?|?]; [done|congruence].
Qed.

Lemma add_nodes_wf l G :
  wf_graph G → NoDup l → (∀ v, v ∈ l → v ∉ nodes G) →
  wf_graph (foldl (λ G v, add_node v G) G l)
  ∧ nodes (foldl (λ G v, add_node v G) G l) = nodes G ++ l.
Proof.
  revert G. induction l as [|v l IH]; intros G Hwf Hnd Hnew; simpl.
  - by rewrite app_nil_r.
  - apply NoDup_cons in Hnd as [Hv Hnd].
    destruct (add_node_wf v G Hwf) as [Hwf' Hnodes].
    rewrite decide_False in Hnodes by (apply Hnew; by left).
    destruct (IH (add_node v G) Hwf' Hnd) as [Hwf'' Hn''].
    + intros w Hw. rewrite Hnodes, elem_of_app, list_elem_of_singleton.
      intros [Hin| ->]; [|done]. apply (Hnew w); [by right|done].
    + split; [done|]. by rewrite Hn'', Hnodes, <- app_assoc.
Qed.

Lemma range_graph_wf n :
  wf_graph (add_nodes_from (range n) null_graph)
  ∧ nodes (add_nodes_from (range n) null_graph) = range n.
Proof.
  apply (add_nodes_wf (range n) null_graph).
  - intros v. simpl. rewrite lookup_empty, elem_of_nil. split; [|done].
    by intros [? ?].
  - apply NoDup_range.
  - intros v _. simpl. by intros ?%elem_of_nil.
Qed.

Lemma add_edge_wf e G :
  wf_graph G → e.1 ∈ nodes G → e.2 ∈ nodes G →
  wf_graph (add_edge e G) ∧ nodes (add_edge e G) = nodes G.
Proof.
  intros Hwf H1 H2. unfold add_edge.
  destruct (add_node_wf e.1 G Hwf) as [Hwf1 Hn1].
  rewrite decide_True in Hn1 by done.
  destruct (add_node_wf e.2 (add_node e.1 G) Hwf1) as [Hwf2 Hn2].
  rewrite decide_True in Hn2 by (by rewrite Hn1).
  unfold wf_graph in *.
  simpl. rewrite Hn2, Hn1. split; [|done].
  intros w. simpl. rewrite <- Hn1, <- Hn2, <- Hwf2.
  destruct (decide (e.2 = w)) as [<-|Hw2].
  - rewrite lookup_insert_eq. split; [intros _|by eexists].
    apply Hwf2. by rewrite Hn2, Hn1.
  - rewrite lookup_insert_ne by done.
    destruct (decide (e.1 = w)) as [<-|Hw1].
    + rewrite lookup_insert_eq. split; [intros _|by eexists].
      apply Hwf2. by rewrite Hn2, Hn1.
    + by rewrite lookup_insert_ne.
Qed.

Lemma built_graph_nodes n E :
  simple_on n E → nodes (built n E) = range n.
Proof.
  intros HE. destruct (range_graph_wf n) as [Hwf Hn]. unfold built.
  assert (∀ G, wf_graph G → nodes G = range n →
               nodes (add_edges_from E G) = range n) as Hgen.
  { unfold add_edges_from. induction E as [|[a b] E IH]; intros G HG HGn; [done|].
    simpl. destruct (HE a b ltac:(by left)) as (_ & Ha & Hb).
    destruct (add_edge_wf (a, b) G HG) as [HG' HGn'];
      [by rewrite HGn..|].
    apply IH; [|done|by rewrite HGn'].
    intros a' b' Hin. apply HE. by right. }
  by apply Hgen.
Qed.

Lemma lookup_range n (u : nat) : u ∈ range n → range n !! u = Some u.
Proof.
  intros Hu%elem_of_range. unfold range. rewrite lookup_seq_lt by lia. done.
Qed.

(** With at least one vertex and a solver that reports status 2, the last
    thing printed is a square matrix with one row and one column per vertex.  Its entry for [u], [v]
    is 1 when {u, v} is in the printed edge list and 0 otherwise, so it is
    symmetric with a zero diagonal; and when the verdict is [True] every row
    sums to [k]. *)
Theorem adjacency_matrix_of_edges n k lmd mu W :
  let sol := optimize W (build_model n k lmd mu) in
  let E := edges_of n (X sol) in
  let run := find_srg n k lmd mu W in
  1 ≤ n → Status sol = 2 →
  ∃ M, last (stdout run) = Some [VMatrix M]
    ∧ length M = Z.to_nat n
    ∧ Forall (λ row, length row = Z.to_nat n) M
    ∧ (∀ u v, u ∈ range n → v ∈ range n →
         entry M u v = Some (if decide (joined E u v) then 1 else 0)
         ∧ entry M u v = entry M v u
         ∧ entry M u u = Some 0)
    ∧ (found_line true E ∈ stdout run →
       Forall (λ row, foldr Z.add 0 row = k) M).
Proof.
  intros sol E run Hn Hs.
  set (G := built n E).
  assert (G = built n E) as HG by done.
  assert (nodes G = range n) as Hnodes
    by (rewrite HG; apply built_graph_nodes, edges_of_simple).
  assert (∀ u v, v ∈ neighbors G u ↔ joined E u v) as Hnb.
  { intros u v. rewrite HG, elem_of_neighbors_built. apply joined_sym. }
  assert (∀ u v, u ∈ range n → v ∈ range n →
            entry (to_numpy_matrix G) u v
            = Some (if decide (joined E u v) then 1 else 0)) as Hentry.
  { intros u v Hu Hv. unfold entry, to_numpy_matrix. rewrite Hnodes.
    rewrite list_lookup_fmap, (lookup_range n u Hu). simpl.
    rewrite list_lookup_fmap, (lookup_range n v Hv). simpl.
    f_equal. destruct (decide (v ∈ neighbors G u)) as [Hin|Hin],
      (decide (joined E u v)) as [Hj|Hj]; try done;
      exfalso; apply Hnb in Hin || apply Hnb in Hj; done. }
  exists (to_numpy_matrix G).
  split; [unfold run; by rewrite (find_srg_solution n k lmd mu W Hs) by lia|].
  unfold to_numpy_matrix at 1 2. rewrite Hnodes.
  split; [unfold range; by rewrite length_fmap, length_seq|]. split; [|split].
  - apply Forall_fmap, Forall_forall. intros u _. simpl.
    unfold range. by rewrite length_fmap, length_seq.
  - intros u v Hu Hv. rewrite !Hentry by done. split; [done|]. split.
    + destruct (decide (joined E u v)) as [Hj|Hj],
        (decide (joined E v u)) as [Hj'|Hj']; try done;
        exfalso; apply joined_sym in Hj || apply joined_sym in Hj'; done.
    + rewrite decide_False; [done|].
      intros Hj%joined_in_range. by destruct Hj as (_ & _ & ?).
  - intros (_ & _ & _ & Hv)%found_line_in_run. symmetry in Hv.
    apply verdict_spec in Hv as [Hd _].
    unfold to_numpy_matrix. rewrite Hnodes.
    apply Forall_fmap, Forall_forall. intros u Hu. simpl.
    rewrite <- (Hd u Hu). unfold degree_in.
    apply (sum_with_count
             (λ v : nat, if decide (v ∈ neighbors G u) then 1 else 0)).
    intros v _. fold sol. fold E. case_decide as Hin.
    + left. split; [|done]. by apply joined_sym, Hnb.
    + right. split; [|done]. intros Hj. by apply Hin, Hnb, joined_sym.
Qed.

Lemma adjacency_matrix_of_edges_witness :
  ∃ M, last (stdout (find_srg 6 3 0 3 (fixed_world OPTIMAL (assignment_of K33))))
       = Some [VMatrix M]
    ∧ length M = 6%nat
    ∧ entry M 0 3 = Some 1 ∧ entry M 3 0 = Some 1 ∧ entry M 0 1 = Some 0.
Proof.
  destruct (adjacency_matrix_of_edges 6 3 0 3
              (fixed_world OPTIMAL (assignment_of K33)) ltac:(lia) eq_refl)
    as (M & Hlast & Hlen & _ & Hentry & _).
  assert (0%nat ∈ range 6 ∧ 1%nat ∈ range 6 ∧ 3%nat ∈ range 6) as (H0 & H1 & H3)
    by (rewrite !elem_of_range; lia).
  exists M. split; [exact Hlast|]. split; [exact Hlen|].
  split; [|split].
  - rewrite (proj1 (Hentry 0 3 H0 H3)%nat). vm_compute. reflexivity.
  - rewrite (proj1 (Hentry 3 0 H3 H0)%nat). vm_compute. reflexivity.
  - rewrite (proj1 (Hentry 0 1 H0 H1)%nat). vm_compute. reflexivity.
Defined.

(** ** The size of the model *)

Lemma length_combinations2 (l : list nat) :
  2 * Z.of_nat (length (combinations2 l))
  = Z.of_nat (length l) * (Z.of_nat (length l) - 1).
Proof.
  induction l as [|a t IH]; [done|]. simpl combinations2.
  rewrite length_app, length_fmap. simpl length. lia.
Qed.

Lemma length_bind_sum {A B} (f : A → list B) (l : list A) :
  Z.of_nat (length (l ≫= f)) = sum_with (λ i, Z.of_nat (length (f i))) l.
Proof.
  induction l as [|i l IH]; [done|].
  rewrite sum_with_cons, <- IH.
  change ((i :: l) ≫= f) with (f i ++ (l ≫= f)). rewrite length_app. lia.
Qed.

Lemma filter_bind {A B} (P : B → Prop) `{∀ b, Decision (P b)}
    (f : A → list B) (l : list A) :
  filter P (l ≫= f) = l ≫= (λ i, filter P (f i)).
Proof.
  induction l as [|i l IH]; [done|].
  change ((i :: l) ≫= f) with (f i ++ (l ≫= f)).
  by rewrite filter_app, IH.
Qed.

Lemma count_but_one (l : list nat) (w : nat) :
  NoDup l → w ∈ l →
  Z.of_nat (length (filter (λ u, u ≠ w) l)) = Z.of_nat (length l) - 1.
Proof.
  intros Hnd Hw.
  pose proof (sum_with_remove (λ _, 1) (λ _, True) w l Hnd Hw I) as H.
  rewrite filter_all in H by done.
  rewrite (filter_ext_in _ (λ u, u ≠ w)) in H by (intros; tauto).
  rewrite !sum_with_const in H. lia.
Qed.

Lemma count_but_two (l : list nat) (w u : nat) :
  NoDup l → w ∈ l → u ∈ l → w ≠ u →
  Z.of_nat (length (filter (λ v, v ≠ u ∧ v ≠ w) l)) = Z.of_nat (length l) - 2.
Proof.
  intros Hnd Hw Hu Hne.
  pose proof (sum_with_remove (λ _, 1) (λ v, v ≠ w) u l Hnd Hu
                ltac:(congruence)) as H.
  rewrite !sum_with_const, count_but_one in H by done. lia.
Qed.

Lemma count_distinct3 (l : list nat) :
  NoDup l →
  Z.of_nat (length (filter distinct3 (product3 l)))
  = Z.of_nat (length l) * (Z.of_nat (length l) - 1) * (Z.of_nat (length l) - 2).
Proof.
  intros Hnd. unfold product3. rewrite filter_bind, length_bind_sum.
  rewrite (sum_with_ext _ (λ _, (Z.of_nat (length l) - 1)
                                 * (Z.of_nat (length l) - 2))).
  { rewrite sum_with_const. lia. }
  intros w Hw. rewrite filter_bind, length_bind_sum.
  rewrite (sum_with_ext _ (λ u, if decide (u ≠ w)
                                then Z.of_nat (length l) - 2 else 0)).
  { rewrite <- sum_with_filter, sum_with_const, count_but_one by done. lia. }
  intros u Hu. rewrite filter_bind, length_bind_sum.
  rewrite (sum_with_ext _ (λ v, if decide (u ≠ w ∧ v ≠ u ∧ v ≠ w)
                                then 1 else 0)).
  - case_decide as Huw.
    + rewrite <- (count_but_two l w u) by (done || congruence).
      rewrite <- (sum_with_filter (λ _, 1)), sum_with_const.
      rewrite (filter_ext_in _ (λ v, v ≠ u ∧ v ≠ w)) by (intros; tauto). lia.
    + rewrite (sum_with_ext _ (λ _, 0)); [by rewrite sum_with_const; lia|].
      intros v _. rewrite decide_False; [done|tauto].
  - intros v _. simpl. rewrite filter_cons, filter_nil. unfold distinct3. simpl.
    destruct (decide (w ≠ u ∧ w ≠ v ∧ u ≠ v)),
      (decide (u ≠ w ∧ v ≠ u ∧ v ≠ w)); try done; exfalso;
      intuition congruence.
Qed.

Lemma length_product3 (l : list nat) :
  Z.of_nat (length (product3 l)) = Z.of_nat (length l) ^ 3.
Proof.
  unfold product3. rewrite length_bind_sum.
  rewrite (sum_with_ext _ (λ _, Z.of_nat (length l) ^ 2)).
  { rewrite sum_with_const. lia. }
  intros w _. rewrite length_bind_sum.
  rewrite (sum_with_ext _ (λ _, Z.of_nat (length l))).
  { rewrite sum_with_const. lia. }
  intros u _. rewrite length_bind_sum.
  rewrite (sum_with_ext _ (λ _, 1)); [rewrite sum_with_const; lia|done].
Qed.

(** With [N] vertices, [N = max 0 n], the model has [N (N - 1) / 2] edge
    variables and [N^3] helper variables, and [N] degree constraints,
    [2 N (N - 1) (N - 2)] linking constraints and [2 N (N - 1)] codegree
    constraints. *)
Theorem model_size n k lmd mu :
  let N := Z.max 0 n in
  let m := build_model n k lmd mu in
  2 * Z.of_nat (length (vars m)) = N * (N - 1) + 2 * N ^ 3
  ∧ Z.of_nat (length (constrs m))
    = N + 2 * (N * (N - 1) * (N - 2)) + 2 * (N * (N - 1)).
Proof.
  intros N m.
  pose proof (length_combinations2 (range n)) as Hx.
  pose proof (length_product3 (range n)) as Hy.
  pose proof (count_distinct3 (range n) (NoDup_range n)) as Hd.
  rewrite length_range in Hx, Hy, Hd. fold N in Hx, Hy, Hd.
  unfold m, build_model, addVars, addConstrs. simpl vars. simpl constrs.
  rewrite !length_app, !length_fmap. unfold x_keys, y_keys.
  pose proof (length_range n) as Hr. fold N in Hr. lia.
Qed.

(** ** The helper variables that are used *)

Lemma codegree_helpers n u0 v0 w u v r :
  (u0, v0) ∈ x_keys n →
  y_ (w, u, v) ∈ expr_vars (codegree n u0 v0) ++ r →
  (∀ t, y_ t ∉ r) →
  distinct3 (w, u, v) ∧ (u < v)%nat.
Proof.
  intros He [Hv|Hv]%elem_of_app Hr; [|by apply Hr in Hv].
  apply elem_of_x_keys in He as [Hlt _].
  apply elem_of_quicksum_vars in Hv as (i & [[Hiu Hiv] _]%list_elem_of_filter & Hv).
  apply list_elem_of_singleton in Hv. injection Hv as -> -> ->.
  split; [|done]. unfold distinct3. simpl. lia.
Qed.

Ltac helper_case H Hv :=
  let u := fresh "u" in let w := fresh "w" in let He := fresh "He" in
  destruct H as ([u w] & -> & He);
  apply (codegree_helpers _ _ _ _ _ _ _ He Hv);
  intros t; simpl; rewrite list_elem_of_singleton; discriminate.

(** A helper variable [y[w,u,v]] occurs in a constraint only when [w], [u]
    and [v] are three different vertices, and outside the two linking
    families only when moreover [u < v]: the helper variables declared for
    the other triples are constrained by nothing but their type. *)
Theorem helper_variables_in_use n k lmd mu c w u v :
  c ∈ constrs (build_model n k lmd mu) → y_ (w, u, v) ∈ constr_vars c →
  distinct3 (w, u, v)
  ∧ (c ∈ (y_lower <$> filter distinct3 (y_keys n))
           ++ (y_upper <$> filter distinct3 (y_keys n))
     ∨ (u < v)%nat).
Proof.
  unfold constr_vars. intros Hc Hv. simpl constrs in Hc.
  rewrite !elem_of_app, !list_elem_of_fmap in Hc.
  rewrite elem_of_app, !list_elem_of_fmap.
  assert (∀ P Q : Prop, P ∧ Q → P ∧ (Q ∨ (u < v)%nat)) as Hleft by tauto.
  assert (∀ P Q : Prop, P ∧ (u < v)%nat → P ∧ (Q ∨ (u < v)%nat)) as Hright
    by tauto.
  destruct Hc as [[[[[[H|H]|H]|H]|H]|H]|H].
  - destruct H as (z & -> & Hz).
    apply elem_of_app in Hv as [Hv|Hv]; [|by apply elem_of_nil in Hv].
    apply (elem_of_quicksum_vars (λ i, xs z i)
             (filter (λ i, i ≠ z) (range n))) in Hv as (i & _ & Hv).
    by apply list_elem_of_singleton in Hv.
  - destruct H as ([[w' u'] v'] & -> & [Hd Ht]%list_elem_of_filter).
    simpl in Hv. rewrite !elem_of_cons, elem_of_nil in Hv.
    destruct Hv as [Hv|[Hv|[Hv|[]]]]; try discriminate Hv.
    injection Hv as <- <- <-. split; [done|]. left. left.
    exists (w, u, v). split; [done|]. by apply list_elem_of_filter.
  - destruct H as ([[w' u'] v'] & -> & [Hd Ht]%list_elem_of_filter).
    simpl in Hv. rewrite !elem_of_cons, elem_of_nil in Hv.
    destruct Hv as [Hv|[Hv|[Hv|[]]]]; try discriminate Hv.
    injection Hv as <- <- <-. split; [done|]. left. right.
    exists (w, u, v). split; [done|]. by apply list_elem_of_filter.
  - apply Hright. helper_case H Hv.
  - apply Hright. helper_case H Hv.
  - apply Hright. helper_case H Hv.
  - apply Hright. helper_case H Hv.
Qed.

Lemma helper_variables_in_use_witness : distinct3 (0, 1, 2)%nat.
Proof.
  apply (helper_variables_in_use 3 2 1 0 (y_lower (0, 1, 2)%nat) 0 1 2).
  - apply (list_elem_of_lookup_2 _ 3%nat). vm_compute. reflexivity.
  - apply (bool_decide_unpack _). vm_compute. exact I.
Defined.

(** In a feasible assignment the helper variable of three different
    vertices [w], [u], [v] is the product of the edge variables of {w, u}
    and {w, v}: it is 1 exactly when [w] is joined to both, does not depend
    on the order of [u] and [v], and is fixed by the edge variables. *)
Theorem helper_records_common_neighbor n k lmd mu a w u v :
  feasible (build_model n k lmd mu) a →
  w ∈ range n → u ∈ range n → v ∈ range n → distinct3 (w, u, v) →
  a (y_ (w, u, v)) = a (x_ (sorted2 w u)) * a (x_ (sorted2 w v))
  ∧ a (y_ (w, u, v)) = a (y_ (w, v, u))
  ∧ (a (y_ (w, u, v)) = 1
     ↔ joined (edges_of n a) w u ∧ joined (edges_of n a) w v).
Proof.
  intros (Hl & _)%feasible_build_model Hw Hu Hv (Hwu & Hwv & Huv).
  simpl in Hwu, Hwv, Huv.
  pose proof (y_is_product n a w u v Hl Hw Hu Hv Hwu Hwv Huv) as H1.
  pose proof (y_is_product n a w v u Hl Hw Hv Hu Hwv Hwu ltac:(congruence))
    as H2.
  rewrite !joined_edges_of by done.
  destruct Hl as (Hx & _).
  pose proof (Hx _ (sorted2_in_x_keys n w u Hw Hu Hwu)) as B1.
  pose proof (Hx _ (sorted2_in_x_keys n w v Hw Hv Hwv)) as B2.
  unfold binary, gt_half in *. simpl in H1, H2.
  destruct B1 as [E1|E1], B2 as [E2|E2]; rewrite E1, E2 in *; lia.
Qed.

Lemma helper_records_common_neighbor_witness :
  assignment_of petersen (y_ (0, 1, 4)%nat) = 1
  ∧ assignment_of petersen (y_ (0, 1, 2)%nat) = 0.
Proof.
  assert (Hf : feasible (build_model 10 3 0 1) (assignment_of petersen))
    by (apply (bool_decide_unpack _); vm_compute; exact I).
  assert (∀ u, (u < 10)%nat → u ∈ range 10) as Hin
    by (intros u Hu; apply elem_of_range; lia).
  split.
  - rewrite (proj1 (helper_records_common_neighbor 10 3 0 1 _ 0 1 4 Hf
                      (Hin 0%nat ltac:(lia)) (Hin 1%nat ltac:(lia))
                      (Hin 4%nat ltac:(lia)) ltac:(by vm_compute))).
    reflexivity.
  - rewrite (proj1 (helper_records_common_neighbor 10 3 0 1 _ 0 1 2 Hf
                      (Hin 0%nat ltac:(lia)) (Hin 1%nat ltac:(lia))
                      (Hin 2%nat ltac:(lia)) ltac:(by vm_compute))).
    reflexivity.
Defined.

(** ** Every graph that exists is found *)

Lemma strongly_regular_ext n E E' k lmd mu :
  (∀ u v, joined E u v ↔ joined E' u v) →
  strongly_regular n E k lmd mu → strongly_regular n E' k lmd mu.
Proof.
  intros Hj (Hd & Hl & Hm).
  assert (∀ v, degree_in n E' v = degree_in n E v) as Hdeg.
  { intros v. unfold degree_in. f_equal. apply filter_ext_in.
    intros u _. symmetry. apply Hj. }
  assert (∀ u v, common_neighbors n E' u v = common_neighbors n E u v) as Hcn.
  { intros u v. unfold common_neighbors. f_equal. apply filter_ext_in.
    intros w _. by rewrite !Hj. }
  split; [intros v Hv; by rewrite Hdeg; apply Hd|]. split.
  - intros u v Hu Hv Hne Hjn. rewrite Hcn. apply Hl; try done. by apply Hj.
  - intros u v Hu Hv Hne Hjn. rewrite Hcn. apply Hm; try done.
    intros Hjn'. by apply Hjn, Hj.
Qed.

Lemma joined_assignment_of n E :
  (∀ u v, (u, v) ∈ E → (u < v)%nat ∧ Z.of_nat v < n) →
  ∀ u v, joined E u v ↔ joined (edges_of n (assignment_of E)) u v.
Proof.
  intros HE.
  assert (∀ u v, (u, v) ∈ E ↔ (u, v) ∈ edges_of n (assignment_of E)) as Hin.
  { intros u v. rewrite elem_of_edges_of. unfold assignment_of, indicator.
    simpl. split.
    - intros Huv. rewrite decide_True by done. split; [done|]. by apply HE.
    - intros [Hg _]. case_decide; [done|]. by unfold gt_half in Hg. }
  intros u v. unfold joined. by rewrite !Hin.
Qed.

(** Whenever a strongly regular graph with the requested parameters exists
    on [range(n)], with [|lmd - mu| <= n], its encoding is a feasible
    assignment of the model; so a solver that reports status 2 for every
    feasible model, and then returns feasible values, makes [find_srg] print
    a [Found True] line whose edge list is a strongly regular graph with
    these parameters. *)
Theorem existing_graph_is_found n k lmd mu W E :
  (∀ u v, (u, v) ∈ E → (u < v)%nat ∧ Z.of_nat v < n) →
  strongly_regular n E k lmd mu → - n ≤ lmd - mu ≤ n →
  let m := build_model n k lmd mu in
  let sol := optimize W m in
  feasible m (assignment_of E)
  ∧ (((∃ a, feasible m a) → Status sol = 2) →
     (Status sol = 2 → feasible m (X sol)) →
     ∃ E', found_line true E' ∈ stdout (find_srg n k lmd mu W)
           ∧ strongly_regular n E' k lmd mu).
Proof.
  intros HE Hsrg Hgap m sol.
  assert (feasible m (assignment_of E)) as Hf.
  { apply strongly_regular_feasible; [|lia|lia|].
    - apply extend_linked. intros e _. unfold indicator, binary.
      case_decide; auto.
    - apply (strongly_regular_ext n E); [|done]. by apply joined_assignment_of. }
  split; [done|]. intros Hcomplete Hsound.
  assert (Status sol = 2) as Hs by (apply Hcomplete; by exists (assignment_of E)).
  pose proof (feasible_strongly_regular n k lmd mu (X sol) (Hsound Hs)) as Hfound.
  exists (edges_of n (X sol)). split; [|done].
  rewrite (find_srg_solution n k lmd mu W Hs) by lia. cbv zeta. fold m. fold sol.
  apply (list_elem_of_lookup_2 _ 2%nat). simpl. do 3 f_equal.
  by apply verdict_spec.
Qed.

Lemma existing_graph_is_found_witness :
  feasible (build_model 5 2 0 1) (assignment_of (edges_of 5 (assignment_of C5)))
  ∧ ∃ E', found_line true E'
            ∈ stdout (find_srg 5 2 0 1 (fixed_world OPTIMAL (assignment_of C5)))
          ∧ strongly_regular 5 E' 2 0 1.
Proof.
  assert (Hf : feasible (build_model 5 2 0 1) (assignment_of C5))
    by (apply (bool_decide_unpack _); vm_compute; exact I).
  destruct (existing_graph_is_found 5 2 0 1
              (fixed_world OPTIMAL (assignment_of C5))
              (edges_of 5 (assignment_of C5))) as [H1 H2].
  - intros u v Hin%elem_of_edges_of. lia.
  - by apply feasible_strongly_regular.
  - lia.
  - split; [exact H1|]. apply H2; [reflexivity|intros _; exact Hf].
Defined.

(** ** A verified graph has admissible parameters *)

Lemma common_neighbors_bounds n E u v :
  0 ≤ Z.of_nat (common_neighbors n E u v) ≤ Z.max 0 n.
Proof.
  unfold common_neighbors. rewrite <- length_range.
  pose proof (length_filter
    (λ w, w ≠ u ∧ w ≠ v ∧ joined E w u ∧ joined E w v) (range n)). lia.
Qed.

Lemma strongly_regular_encoded n k lmd mu X :
  strongly_regular n (edges_of n X) k lmd mu → - n ≤ lmd - mu ≤ n →
  feasible (build_model n k lmd mu) (assignment_of (edges_of n X)).
Proof.
  intros Hsrg Hgap. apply strongly_regular_feasible; [|lia|lia|].
  - apply extend_linked. intros e _. unfold indicator, binary.
    case_decide; auto.
  - by rewrite edges_of_assignment_of.
Qed.

Lemma strongly_regular_admissible n k lmd mu X :
  1 ≤ n → strongly_regular n (edges_of n X) k lmd mu →
  k * (k - 1 - lmd) = (n - k - 1) * mu ∧ 0 ≤ k < n.
Proof.
  intros Hn Hsrg. set (E := edges_of n X) in *.
  pose proof Hsrg as (Hd & Hl & Hm).
  assert (∀ u v, (u, v) ∈ x_keys n →
            joined E u v ↔ gt_half (X (x_ (u, v)))) as Hjoin.
  { intros u v He. destruct (x_keys_in_range _ _ _ He) as (Hu & Hv & Hne).
    unfold E. rewrite joined_edges_of, sorted2_lt by
      (done || (apply elem_of_x_keys in He; lia)). done. }
  assert (∀ u v, u ∈ range n → v ∈ range n → u ≠ v →
            sorted2 u v ∈ x_keys n
            ∧ (joined E u v ↔ gt_half (X (x_ (sorted2 u v))))) as Hsorted.
  { intros u v Hu Hv Hne. split; [by apply sorted2_in_x_keys|].
    unfold E. by rewrite joined_edges_of. }
  assert (0%nat ∈ range n) as H0 by (apply elem_of_range; lia).
  destruct (decide (Exists (λ e, gt_half (X (x_ e))) (x_keys n))) as [Hedge|Hnone];
    [destruct (decide (Exists (λ e, ¬ gt_half (X (x_ e))) (x_keys n)))
       as [Hgap|Hall]|].
  - (* an edge and a non-edge: both parameters are codegrees *)
    apply Exists_exists in Hedge as ([u v] & He & Hg).
    apply Exists_exists in Hgap as ([u' v'] & He' & Hg').
    destruct (x_keys_in_range _ _ _ He) as (Hu & Hv & Hne).
    destruct (x_keys_in_range _ _ _ He') as (Hu' & Hv' & Hne').
    pose proof (Hl u v Hu Hv Hne (proj2 (Hjoin u v He) Hg)) as Hlam.
    pose proof (Hm u' v' Hu' Hv' Hne'
                  (λ Hj, Hg' (proj1 (Hjoin u' v' He') Hj))) as Hmu.
    pose proof (common_neighbors_bounds n E u v).
    pose proof (common_neighbors_bounds n E u' v').
    assert (feasible (build_model n k lmd mu) (assignment_of E)) as Hf
      by (apply strongly_regular_encoded; [done|lia]).
    split; [by apply (feasible_identity n k lmd mu (assignment_of E))|].
    pose proof (feasible_degree_bounds n k lmd mu _ Hn Hf). lia.
  - (* every pair is an edge: mu is not looked at, and k = n - 1 *)
    assert (∀ u v, u ∈ range n → v ∈ range n → u ≠ v → joined E u v) as Hfull.
    { intros u v Hu Hv Hne. destruct (Hsorted u v Hu Hv Hne) as [Hk Hj].
      apply Hj. destruct (decide (gt_half (X (x_ (sorted2 u v))))); [done|].
      exfalso. apply Hall, Exists_exists. by exists (sorted2 u v). }
    assert (feasible (build_model n k lmd lmd) (assignment_of E)) as Hf.
    { apply strongly_regular_encoded; [|lia]. split; [done|]. split; [done|].
      intros u v Hu Hv Hne Hnj. by destruct Hnj; apply Hfull. }
    pose proof (feasible_identity n k lmd lmd _ Hn Hf) as Hid.
    pose proof (feasible_degree_bounds n k lmd lmd _ Hn Hf).
    assert (k = n - 1) as ->; [|split; lia].
    rewrite <- (Hd 0%nat H0), <- (length_others n Hn). unfold degree_in.
    do 2 f_equal. apply filter_ext_in. intros u Hu. split.
    + intros Hj%joined_in_range. tauto.
    + intros Hne. by apply Hfull.
  - (* no edge at all: lmd is not looked at, and k = 0 *)
    assert (∀ u v, ¬ joined E u v) as Hempty.
    { intros u v Hj. destruct (joined_in_range _ _ _ _ Hj) as (Hu & Hv & Hne).
      destruct (Hsorted u v Hu Hv Hne) as [Hk Hj'].
      apply Hnone, Exists_exists. exists (sorted2 u v). split; [done|].
      by apply Hj'. }
    assert (feasible (build_model n k mu mu) (assignment_of E)) as Hf.
    { apply strongly_regular_encoded; [|lia]. split; [done|]. split; [|done].
      intros u v _ _ _ Hj. by apply Hempty in Hj. }
    pose proof (feasible_identity n k mu mu _ Hn Hf) as Hid.
    pose proof (feasible_degree_bounds n k mu mu _ Hn Hf).
    assert (k = 0) as ->; [|split; lia].
    rewrite <- (Hd 0%nat H0). unfold degree_in.
    rewrite filter_none; [done|]. intros u _ Hj. by apply Hempty in Hj.
Qed.

(** For [n >= 1], [find_srg] prints the verdict [True] only for parameters
    that satisfy [k (k - 1 - lmd) = (n - k - 1) mu] and [0 <= k < n],
    whatever values the solver returned. *)
Theorem verified_parameters_are_admissible n k lmd mu W E :
  1 ≤ n → found_line true E ∈ stdout (find_srg n k lmd mu W) →
  k * (k - 1 - lmd) = (n - k - 1) * mu ∧ 0 ≤ k < n.
Proof.
  intros Hn (_ & _ & _ & Hv)%found_line_in_run. symmetry in Hv.
  apply verdict_spec in Hv.
  by apply (strongly_regular_admissible n k lmd mu
              (X (optimize W (build_model n k lmd mu)))).
Qed.

Lemma verified_parameters_are_admissible_witness :
  3 * (3 - 1 - 0) = (6 - 3 - 1) * 3 ∧ 0 ≤ 3 < 6.
Proof.
  apply (verified_parameters_are_admissible 6 3 0 3
           (fixed_world OPTIMAL (assignment_of K33))
           (edges_of 6 (assignment_of K33))); [lia|].
  apply (list_elem_of_lookup_2 _ 2%nat). vm_compute. reflexivity.
Defined.
